(** * pythonMorpher: the morph engine of [main.py]

    A shallow embedding of the image-morphing paths of [main.py]
    ([MorphEditor.update_morph], [MorphEditor.interpolate_image],
    [MorphEditor.save_gif], [MorphEditor.save_template] and
    [MorphEditor.load_template]) together with the properties the
    specification states about them.

    The program leans on four foreign routines: [scipy.spatial.Delaunay],
    [cv2.getAffineTransform], [cv2.warpAffine] and [cv2.fillConvexPoly].
    They are not part of the program; they enter the development as an
    interface ([Library]) and every general theorem holds for any
    implementation of it.  Floating-point arithmetic enters the same way
    ([FloatOps]).  A concrete, exact instance over the rationals is given
    further down and is used to run the program on small inputs. *)

From Stdlib Require Import Ascii String.
From Stdlib Require Import ZArith List Bool Arith Lia QArith Qround.
Import ListNotations.
#[local] Close Scope Q_scope.

Set Implicit Arguments.

(** ** Python exceptions and results *)

Inductive exn : Type :=
| QhullError
| cv2_error
| IndexError
| AttributeError
| ValueError
| ZeroDivisionError.

Inductive result (A : Type) : Type :=
| Ok (a : A)
| Raise (e : exn).

Arguments Ok {A} a.
Arguments Raise {A} e.

(** ** Rasters

    An image is a [uint8] array of shape (height, width, 3): a list of rows,
    each a list of pixels, each three channel values.  Arithmetic on the
    elements wraps modulo 256, as numpy's [uint8] arithmetic does. *)

Definition pixel : Type := (Z * Z * Z)%type.
Definition image : Type := list (list pixel).

Definition u8 (z : Z) : Z := (z mod 256)%Z.

Definition shape (img : image) : nat * nat :=
  (length img, length (hd [] img)).

Definition pixel_map (f : Z -> Z) (p : pixel) : pixel :=
  let '(a, b, c) := p in (f a, f b, f c).

Definition pixel_map2 (f : Z -> Z -> Z) (p q : pixel) : pixel :=
  let '(a, b, c) := p in
  let '(a', b', c') := q in (f a a', f b b', f c c').

Fixpoint map2 {A B C : Type} (f : A -> B -> C) (l : list A) (l' : list B)
  : list C :=
  match l, l' with
  | a :: t, b :: t' => f a b :: map2 f t t'
  | _, _ => []
  end.

Fixpoint mapi_from {A B : Type} (f : nat -> A -> B) (i : nat) (l : list A)
  : list B :=
  match l with
  | [] => []
  | a :: t => f i a :: mapi_from f (S i) t
  end.

Definition img_map (f : Z -> Z) (a : image) : image :=
  map (map (pixel_map f)) a.

Definition img_map2 (f : Z -> Z -> Z) (a b : image) : image :=
  map2 (map2 (pixel_map2 f)) a b.

(** [img_mapi f img]: pixel (x, y) of the result is [f x y] of the old one. *)
Definition img_mapi (f : nat -> nat -> pixel -> pixel) (a : image) : image :=
  mapi_from (fun y row => mapi_from (fun x p => f x y p) 0 row) 0 a.

(** [a * b], [a + b] and [k - a] on [uint8] arrays. *)
Definition img_mul : image -> image -> image :=
  img_map2 (fun a b => u8 (a * b)).
Definition img_add : image -> image -> image :=
  img_map2 (fun a b => u8 (a + b)).
Definition img_rsub (k : Z) : image -> image :=
  img_map (fun a => u8 (k - a)).

Definition zeros_like (a : image) : image := img_map (fun _ => 0%Z) a.
Definition copy (a : image) : image := a.
Definition astype_uint8 (a : image) : image := img_map u8 a.

(** An array of the given size whose pixel (x, y) is [f x y]. *)
Definition tabulate (height width : nat) (f : nat -> nat -> pixel) : image :=
  map (fun y => map (fun x => f x y) (seq 0 width)) (seq 0 height).

(** Pixel at column [x] of row [y]. *)
Definition getpx (img : image) (x y : nat) : option pixel :=
  match nth_error img y with
  | Some row => nth_error row x
  | None => None
  end.

(** Every channel of every pixel is a [uint8] value. *)
Definition uint8_pixel (p : pixel) : Prop :=
  let '(a, b, c) := p in
  (0 <= a < 256)%Z /\ (0 <= b < 256)%Z /\ (0 <= c < 256)%Z.

Definition uint8_image (img : image) : Prop :=
  Forall (Forall uint8_pixel) img.

(** All rows have the width the array's shape reports. *)
Definition rectangular (img : image) : Prop :=
  Forall (fun row => length row = snd (shape img)) img.

(** One pixel of [morphed * (1 - mask) + warped * mask]. *)
Definition composite_pixel (m w k : pixel) : pixel :=
  pixel_map2 (fun a b => u8 (a + b))
    (pixel_map2 (fun a b => u8 (a * b)) m (pixel_map (fun a => u8 (1 - a)) k))
    (pixel_map2 (fun a b => u8 (a * b)) w k).

(** Pixel (x, y) lies inside an array of the shape of [img]. *)
Definition in_shape (img : image) (x y : nat) : Prop :=
  y < fst (shape img) /\ x < snd (shape img).

(** The array has [height] rows of [width] pixels each. *)
Definition has_shape (height width : nat) (img : image) : Prop :=
  length img = height /\ Forall (fun row => length row = width) img.

(** ** Floating-point numbers

    Coordinates are Python floats and [float32] array elements.  Their
    arithmetic is kept abstract. *)

Class FloatOps : Type := {
  F : Type;
  f_of_int : Z -> F;           (* an [int] operand in float arithmetic *)
  fsub : F -> F -> F;          (* Python float [-] *)
  fmul : F -> F -> F;          (* Python float [*] *)
  true_div : Z -> Z -> F;      (* Python [int / int], divisor not 0 *)
  float32 : F -> F;            (* [np.float32(x)] *)
  fmul32 : F -> F -> F;        (* Python float times a [float32] element *)
  fadd32 : F -> F -> F;        (* [float32 + float32] *)
  int32_of : F -> Z            (* [astype(np.int32)] *)
}.

Definition triangle (A : Type) : Type := (A * A * A)%type.
Definition simplex : Type := (nat * nat * nat)%type.

Section Engine.

Context {FO : FloatOps}.

Definition point : Type := (F * F)%type.

(** ** The foreign routines

    [Delaunay pts] raises or returns the simplices (index triples).
    [getAffineTransform] raises or returns a 2x3 matrix.  [cv2.warpAffine]
    raises or returns an image of the requested size, whose pixel (x, y) is
    a [uint8] value determined by the source image and the matrix.
    [cv2.fillConvexPoly] raises or paints the colour over the pixels the
    polygon covers and leaves the others as they were. *)

Class Library : Type := {
  Mat : Type;
  Delaunay : list point -> result (list simplex);
  getAffineTransform : triangle point -> triangle point -> result Mat;
  warp_error : image -> Mat -> option exn;
  warp_pixel : image -> Mat -> nat -> nat -> pixel;
  fill_error : triangle (Z * Z) -> option exn;
  covers : triangle (Z * Z) -> nat -> nat -> bool
}.

Context {L : Library}.

Definition warpAffine (src : image) (M : Mat) (dsize : nat * nat)
  : result image :=
  match warp_error src M with
  | Some e => Raise e
  | None =>
      let '(width, height) := dsize in
      Ok (tabulate height width
            (fun x y => pixel_map u8 (warp_pixel src M x y)))
  end.

Definition fillConvexPoly (img : image) (poly : triangle (Z * Z))
                          (color : pixel) : result image :=
  match fill_error poly with
  | Some e => Raise e
  | None =>
      Ok (img_mapi (fun x y p => if covers poly x y then color else p) img)
  end.

(** ** Effects: calls of the foreign routines, prints, exceptions *)

Inductive event : Type :=
| ev_Delaunay (pts : list point)
| ev_getAffineTransform (src_tri dst_tri : triangle point)
| ev_warpAffine (M : Mat) (dsize : nat * nat)
| ev_fillConvexPoly (poly : triangle (Z * Z))
| ev_print (e : exn).

(** A computation yields the events it performed, in order, and either a
    value or the exception that stopped it. *)
Definition Eff (A : Type) : Type := (list event * result A)%type.

Definition ret {A : Type} (a : A) : Eff A := ([], Ok a).

Definition raise {A : Type} (e : exn) : Eff A := ([], Raise e).

Definition bind {A B : Type} (m : Eff A) (f : A -> Eff B) : Eff B :=
  match m with
  | (l, Ok a) => let '(l', r) := f a in (l ++ l', r)
  | (l, Raise e) => (l, Raise e)
  end.

Definition call {A : Type} (ev : event) (r : result A) : Eff A := ([ev], r).

Definition print (e : exn) : Eff unit := ([ev_print e], Ok tt).

(** [try: body except Exception as e: handler e] *)
Definition try_except {A : Type} (body : Eff A) (handler : exn -> Eff A)
  : Eff A :=
  match body with
  | (l, Ok a) => (l, Ok a)
  | (l, Raise e) => let '(l', r) := handler e in (l ++ l', r)
  end.

Notation "x <- m ;; k" := (bind m (fun x => k))
  (at level 61, m at next level, right associativity).

Fixpoint for_each {A S : Type} (body : S -> A -> Eff S) (s : S) (l : list A)
  : Eff S :=
  match l with
  | [] => ret s
  | a :: t => s' <- body s a ;; for_each body s' t
  end.

(** ** The data model *)

(** [MorphPoint]: a correspondence, both points in normalized coordinates. *)
Record MorphPoint : Type := {
  source : point;
  target : point
}.

(** The editor.  [points] is the one list object that both canvases hold
    ([self.target_canvas.points = self.source_canvas.points]). *)
Record MorphEditor : Type := {
  points : list MorphPoint;
  source_image : option image;
  target_image : option image;
  source_canvas_image : option image;
  target_canvas_image : option image
}.

Definition set_target_canvas_image (self : MorphEditor) (img : image)
  : MorphEditor :=
  {| points := points self;
     source_image := source_image self;
     target_image := target_image self;
     source_canvas_image := source_canvas_image self;
     target_canvas_image := Some (copy img) |}.

(** [(p.x() * width, p.y() * height)] as a [float32] row. *)
Definition to_pixel_space (width height : nat) (p : point) : point :=
  (float32 (fmul (fst p) (f_of_int (Z.of_nat width))),
   float32 (fmul (snd p) (f_of_int (Z.of_nat height)))).

Definition source_points_of (width height : nat) (ps : list MorphPoint)
  : list point :=
  map (fun p => to_pixel_space width height (source p)) ps.

Definition target_points_of (width height : nat) (ps : list MorphPoint)
  : list point :=
  map (fun p => to_pixel_space width height (target p)) ps.

(** [(1 - t) * s + t * g] on one coordinate. *)
Definition blend (t s g : F) : F :=
  fadd32 (fmul32 (fsub (f_of_int 1) t) s) (fmul32 t g).

Definition blend_point (t : F) (s g : point) : point :=
  (blend t (fst s) (fst g), blend t (snd s) (snd g)).

(** [(1 - t) * source_points + t * target_points] *)
Definition inter_points_of (t : F) (source_points target_points : list point)
  : list point :=
  map2 (blend_point t) source_points target_points.

(** The three rows of [pts] a simplex names, when all three exist. *)
Definition lookup3 (pts : list point) (s : simplex)
  : option (triangle point) :=
  let '(i, j, k) := s in
  match nth_error pts i, nth_error pts j, nth_error pts k with
  | Some a, Some b, Some c => Some (a, b, c)
  | _, _, _ => None
  end.

(** [pts[simplex]] *)
Definition index3 (pts : list point) (s : simplex) : Eff (triangle point) :=
  match lookup3 pts s with
  | Some tri => ret tri
  | None => raise IndexError
  end.

Definition astype_int32 (tri : triangle point) : triangle (Z * Z) :=
  let '(a, b, c) := tri in
  ((int32_of (fst a), int32_of (snd a)),
   (int32_of (fst b), int32_of (snd b)),
   (int32_of (fst c), int32_of (snd c))).

(** [morphed * (1 - mask) + warped * mask] *)
Definition composite (morphed warped mask : image) : image :=
  img_add (img_mul morphed (img_rsub 1 mask)) (img_mul warped mask).

(** The body of the loop over [tri.simplices]; it is the same in
    [update_morph] and in [interpolate_image] up to the names of the image
    and of the destination points. *)
Definition warp_triangle (img : image) (width height : nat)
    (source_points dst_points : list point) (morphed : image) (s : simplex)
  : Eff image :=
  src_tri <- index3 source_points s ;;
  dst_tri <- index3 dst_points s ;;
  warp_mat <- call (ev_getAffineTransform src_tri dst_tri)
                   (getAffineTransform src_tri dst_tri) ;;
  warped <- call (ev_warpAffine warp_mat (width, height))
                 (warpAffine img warp_mat (width, height)) ;;
  mask <- call (ev_fillConvexPoly (astype_int32 dst_tri))
               (fillConvexPoly (zeros_like img) (astype_int32 dst_tri)
                               (1, 1, 1)%Z) ;;
  ret (composite morphed warped mask).

Definition warp_triangles (img : image) (width height : nat)
    (source_points dst_points : list point) (seed : image)
    (simplices : list simplex) : Eff image :=
  for_each (warp_triangle img width height source_points dst_points)
           seed simplices.

(** ** [MorphEditor.update_morph] *)
Definition update_morph (self : MorphEditor) : Eff MorphEditor :=
  match source_image self with
  | None => ret self
  | Some img =>
      if length (points self) <? 3 then ret self
      else
        let '(height, width) := shape img in
        let source_points := source_points_of width height (points self) in
        let target_points := target_points_of width height (points self) in
        try_except
          (tri <- call (ev_Delaunay source_points)
                       (Delaunay source_points) ;;
           morphed <- warp_triangles img width height source_points
                        target_points (copy img) tri ;;
           ret (set_target_canvas_image self (astype_uint8 morphed)))
          (fun e => _ <- print e ;; ret self)
  end.

(** ** [MorphEditor.interpolate_image] *)

(** The statements inside [try:]. *)
Definition interpolate_body (img : image) (width height : nat)
    (source_points inter_points : list point) : Eff image :=
  tri <- call (ev_Delaunay source_points) (Delaunay source_points) ;;
  morphed <- warp_triangles img width height source_points inter_points
               (zeros_like img) tri ;;
  ret (astype_uint8 morphed).

Definition interpolate_image (self : MorphEditor) (t : F) : Eff image :=
  match source_canvas_image self with
  | None => raise AttributeError
  | Some img =>
      let '(height, width) := shape img in
      let source_points := source_points_of width height (points self) in
      let target_points := target_points_of width height (points self) in
      let inter_points := inter_points_of t source_points target_points in
      try_except
        (interpolate_body img width height source_points inter_points)
        (fun e => _ <- print e ;; ret img)
  end.

(** ** [MorphEditor.save_gif], up to the list handed to the encoder

    [canceled i] is what [progress.wasCanceled()] answers in iteration [i].
    The result is [None] when the function returns from inside the loop. *)
Fixpoint frames_loop (self : MorphEditor) (num_frames : nat)
    (canceled : nat -> bool) (range : list nat) (images : list image)
  : Eff (option (list image)) :=
  match range with
  | [] => ret (Some images)
  | i :: rest =>
      if canceled i then ret None
      else
        t <- (if (Z.of_nat num_frames - 1 =? 0)%Z
              then raise ZeroDivisionError
              else ret (true_div (Z.of_nat i) (Z.of_nat num_frames - 1))) ;;
        morphed <- interpolate_image self t ;;
        frames_loop self num_frames canceled rest (images ++ [morphed])
  end.

Definition save_gif_frames (self : MorphEditor) (num_frames : nat)
    (loop : bool) (canceled : nat -> bool) : Eff (option (list image)) :=
  match source_canvas_image self with
  | None => raise AttributeError
  | Some _ =>
      r <- frames_loop self num_frames canceled (seq 0 num_frames) [] ;;
      match r with
      | None => ret None
      | Some images =>
          ret (Some (if loop then images ++ rev images else images))
      end
  end.

(** The blend factor [save_gif] computes for frame [i]: [i / (num_frames - 1)]. *)
Definition frame_time (num_frames i : nat) : F :=
  true_div (Z.of_nat i) (Z.of_nat num_frames - 1).

(** ** What one simplex contributes

    The polygon [fillConvexPoly] is given for a simplex covers pixel (x, y). *)
Definition covered (dst_points : list point) (s : simplex) (x y : nat)
  : bool :=
  match lookup3 dst_points s with
  | Some dst_tri => covers (astype_int32 dst_tri) x y
  | None => false
  end.

(** Pixel (x, y) of the image [warpAffine] returns for a simplex. *)
Definition warped_at (img : image) (source_points dst_points : list point)
    (s : simplex) (x y : nat) : option pixel :=
  match lookup3 source_points s, lookup3 dst_points s with
  | Some src_tri, Some dst_tri =>
      match getAffineTransform src_tri dst_tri with
      | Ok M => Some (pixel_map u8 (warp_pixel img M x y))
      | Raise _ => None
      end
  | _, _ => None
  end.

(** Some statement of the loop body raises for this simplex. *)
Definition triangle_raises (img : image) (source_points dst_points : list point)
    (s : simplex) : Prop :=
  match lookup3 source_points s, lookup3 dst_points s with
  | Some src_tri, Some dst_tri =>
      match getAffineTransform src_tri dst_tri with
      | Ok M =>
          warp_error img M <> None
          \/ fill_error (astype_int32 dst_tri) <> None
      | Raise _ => True
      end
  | _, _ => True
  end.

(** The value of pixel (x, y) after the loop ran over [simplices], when it
    was [p] before: every simplex whose polygon covers the pixel overwrites
    it with the pixel of its own warped image. *)
Fixpoint painted (img : image) (source_points dst_points : list point)
    (x y : nat) (p : pixel) (simplices : list simplex) : pixel :=
  match simplices with
  | [] => p
  | s :: rest =>
      painted img source_points dst_points x y
        (if covered dst_points s x y
         then match warped_at img source_points dst_points s x y with
              | Some q => q
              | None => p
              end
         else p)
        rest
  end.

(** The point layouts, in pixel space, that the two functions compute from
    the editor's points and the shape of the image. *)
Definition source_layout (self : MorphEditor) (img : image) : list point :=
  source_points_of (snd (shape img)) (fst (shape img)) (points self).

Definition target_layout (self : MorphEditor) (img : image) : list point :=
  target_points_of (snd (shape img)) (fst (shape img)) (points self).

Definition blended_layout (self : MorphEditor) (img : image) (t : F)
  : list point :=
  inter_points_of t (source_layout self img) (target_layout self img).

End Engine.

(** ** Templates: [save_template] and [load_template]

    [repr x] is the text [csv.writer] writes for the float [x], and
    [float s] is Python's [float(s)], [None] standing for [ValueError]. *)

Class FloatText (FO : FloatOps) : Type := {
  repr : F -> list ascii;
  float : list ascii -> option F
}.

Definition delimiter : ascii := ","%char.
Definition quotechar : ascii := ascii_of_nat 34.
Definition CR : ascii := ascii_of_nat 13.
Definition LF : ascii := ascii_of_nat 10.
Definition lineterminator : list ascii := [CR; LF].

Definition is_eol (c : ascii) : bool := Ascii.eqb c LF || Ascii.eqb c CR.

(** Characters that make [csv.writer] quote a field ([QUOTE_MINIMAL]). *)
Definition special (c : ascii) : bool :=
  Ascii.eqb c delimiter || Ascii.eqb c quotechar || is_eol c.

Definition quoted (field : list ascii) : list ascii :=
  quotechar
  :: flat_map (fun c => if Ascii.eqb c quotechar then [c; c] else [c]) field
  ++ [quotechar].

Definition csv_field (field : list ascii) : list ascii :=
  if existsb special field then quoted field else field.

Fixpoint join (sep : ascii) (fields : list (list ascii)) : list ascii :=
  match fields with
  | [] => []
  | [f] => f
  | f :: rest => f ++ sep :: join sep rest
  end.

(** [writer.writerow(fields)] for a row of at least two fields. *)
Definition writerow (fields : list (list ascii)) : list ascii :=
  join delimiter (map csv_field fields) ++ lineterminator.

(** Reading a file opened in text mode: [\r\n] and [\r] arrive as [\n]. *)
Fixpoint universal_newlines (text : list ascii) : list ascii :=
  match text with
  | [] => []
  | c :: rest =>
      if Ascii.eqb c CR then
        LF :: match rest with
              | [] => []
              | c' :: rest' =>
                  if Ascii.eqb c' LF then universal_newlines rest'
                  else universal_newlines rest
              end
      else c :: universal_newlines rest
  end.

(** The states of [csv.reader]. *)
Inductive reader_state : Type :=
| START_RECORD
| START_FIELD
| IN_FIELD
| IN_QUOTED_FIELD
| QUOTE_IN_QUOTED_FIELD.

(** [csv.reader] over the text of the file: [field] and [row] are the field
    and the record being collected.  A blank line is the empty record.
    The reader of the library also raises [Error] on a field that grows
    beyond [csv.field_size_limit()]; this is left out here, so the function
    is that reader on the texts that are [within_field_limit] below. *)
Fixpoint reader (st : reader_state) (field : list ascii)
    (row : list (list ascii)) (text : list ascii)
  : list (list (list ascii)) :=
  match text with
  | [] =>
      match st with
      | START_RECORD => []
      | _ => [row ++ [field]]
      end
  | c :: rest =>
      match st with
      | START_RECORD =>
          if is_eol c then [] :: reader START_RECORD [] [] rest
          else if Ascii.eqb c quotechar then reader IN_QUOTED_FIELD [] row rest
          else if Ascii.eqb c delimiter
               then reader START_FIELD [] (row ++ [[]]) rest
          else reader IN_FIELD [c] row rest
      | START_FIELD =>
          if is_eol c then (row ++ [[]]) :: reader START_RECORD [] [] rest
          else if Ascii.eqb c quotechar then reader IN_QUOTED_FIELD [] row rest
          else if Ascii.eqb c delimiter
               then reader START_FIELD [] (row ++ [[]]) rest
          else reader IN_FIELD [c] row rest
      | IN_FIELD =>
          if is_eol c then (row ++ [field]) :: reader START_RECORD [] [] rest
          else if Ascii.eqb c delimiter
               then reader START_FIELD [] (row ++ [field]) rest
          else reader IN_FIELD (field ++ [c]) row rest
      | IN_QUOTED_FIELD =>
          if Ascii.eqb c quotechar
          then reader QUOTE_IN_QUOTED_FIELD field row rest
          else reader IN_QUOTED_FIELD (field ++ [c]) row rest
      | QUOTE_IN_QUOTED_FIELD =>
          if Ascii.eqb c quotechar
          then reader IN_QUOTED_FIELD (field ++ [c]) row rest
          else if Ascii.eqb c delimiter
               then reader START_FIELD [] (row ++ [field]) rest
          else if is_eol c
               then (row ++ [field]) :: reader START_RECORD [] [] rest
          else reader IN_FIELD (field ++ [c]) row rest
      end
  end.

(** [csv.field_size_limit()], which the program leaves at its default. *)
Definition field_size_limit : Z := 131072.

(** No field of the text is longer than the limit. *)
Definition within_field_limit (text : list ascii) : Prop :=
  Forall (Forall (fun field => (Z.of_nat (length field) <= field_size_limit)%Z))
         (reader START_RECORD [] [] (universal_newlines text)).

Section Template.

Context {FO : FloatOps} {FT : FloatText FO}.

Definition template_row (p : MorphPoint) : list (list ascii) :=
  [repr (fst (source p)); repr (snd (source p));
   repr (fst (target p)); repr (snd (target p))].

(** [save_template]: the text written to the chosen file. *)
Definition save_template (self : MorphEditor) : list ascii :=
  flat_map (fun p => writerow (template_row p)) (points self).

(** [src_x, src_y, tgt_x, tgt_y = map(float, row)] and the new point. *)
Definition parse_row (row : list (list ascii)) : result MorphPoint :=
  match row with
  | [a; b; c; d] =>
      match float a, float b, float c, float d with
      | Some src_x, Some src_y, Some tgt_x, Some tgt_y =>
          Ok {| source := (src_x, src_y); target := (tgt_x, tgt_y) |}
      | _, _, _, _ => Raise ValueError
      end
  | _ => Raise ValueError
  end.

(** The loop over the rows; [pts] is the list being filled.  An exception
    leaves the points appended so far in place. *)
Fixpoint load_rows (rows : list (list (list ascii))) (pts : list MorphPoint)
  : list MorphPoint * result unit :=
  match rows with
  | [] => (pts, Ok tt)
  | row :: rest =>
      match parse_row row with
      | Ok p => load_rows rest (pts ++ [p])
      | Raise e => (pts, Raise e)
      end
  end.

Definition set_points (self : MorphEditor) (pts : list MorphPoint)
  : MorphEditor :=
  {| points := pts;
     source_image := source_image self;
     target_image := target_image self;
     source_canvas_image := source_canvas_image self;
     target_canvas_image := target_canvas_image self |}.

(** [load_template] on a file with the given text: the list is cleared and
    then filled row by row. *)
Definition load_template (self : MorphEditor) (text : list ascii)
  : MorphEditor * result unit :=
  let '(pts, r) :=
    load_rows (reader START_RECORD [] [] (universal_newlines text)) [] in
  (set_points self pts, r).

(** The four floats of a correspondence, in the order they are written. *)
Definition coordinates (p : MorphPoint) : list F :=
  [fst (source p); snd (source p); fst (target p); snd (target p)].

(** The text of [x] reads back as [x] and needs no quoting. *)
Definition formats_well (x : F) : Prop :=
  float (repr x) = Some x /\ existsb special (repr x) = false.

End Template.

Arguments Library FO : clear implicits.
Arguments event {FO L}.
Arguments Eff {FO L} A.

(** ** The other operations of [MorphEditor] *)

Section Editor.

Context {FO : FloatOps} {L : Library FO}.

(** [points_updated] *)
Definition points_updated (self : MorphEditor) : Eff MorphEditor :=
  match source_image self with
  | Some _ =>
      if 3 <=? length (points self) then update_morph self else ret self
  | None => ret self
  end.

(** [clear_points]: [self.source_canvas.points.clear()] *)
Definition clear_points (self : MorphEditor) : MorphEditor :=
  set_points self [].

(** [reset_morph]: [point.target = QPointF(point.source)] for every point *)
Definition reset_morph (self : MorphEditor) : MorphEditor :=
  set_points self
    (map (fun p => {| source := source p; target := source p |})
         (points self)).

(** [cv2.cvtColor(image, cv2.COLOR_BGR2RGB)] *)
Definition cvtColor_BGR2RGB (img : image) : image :=
  map (map (fun p : pixel => let '(b, g, r) := p in (r, g, b))) img.

(** [MorphEditor.__init__], as far as the record goes. *)
Definition new_editor : MorphEditor :=
  {| points := [];
     source_image := None;
     target_image := None;
     source_canvas_image := None;
     target_canvas_image := None |}.

(** [max(1, 100 - self.speed_slider.value())], the frame duration handed to
    the encoder. *)
Definition gif_duration (speed : Z) : Z := Z.max 1 (100 - speed).

(** [0 if loop else 1], the loop count handed to the encoder. *)
Definition gif_loop (loop : bool) : Z := if loop then 0%Z else 1%Z.

End Editor.

(** ** [ImageCanvas]: geometry and mouse events

    The float operations the canvas needs besides those of [FloatOps]. *)

Class CanvasFloats (FO : FloatOps) : Type := {
  fadd : F -> F -> F;          (* Python float [+] *)
  fdiv : F -> F -> F;          (* Python float [/], divisor not 0 *)
  flt : F -> F -> bool;        (* [a < b], also written [b > a] *)
  fzero : F -> bool;           (* [x == 0], the divisors that raise *)
  int_of : F -> result Z       (* [int(x)]; it raises on inf and nan *)
}.

Inductive button : Type := LeftButton | RightButton | OtherButton.

Section Canvas.

Context {FO : FloatOps} {CF : CanvasFloats FO}.

(** [QRectF(x, y, w, h)] *)
Record QRectF : Type := {
  rect_x : F;
  rect_y : F;
  rect_width : F;
  rect_height : F
}.

(** The canvas, without its image and its points: the image is the
    editor's, and the list of points is the one list both canvases hold.
    [pixmap] is the size of [self.pixmap()], [None] when there is none;
    [widget_size] is [self.size()]; [parent_has_points_updated] is what
    [hasattr(self.parent(), "points_updated")] answers. *)
Record ImageCanvas : Type := {
  is_target : bool;
  pixmap : option (Z * Z);
  widget_size : Z * Z;
  selected_point : option nat;
  dragging : bool;
  display_triangles : bool;
  parent_has_points_updated : bool
}.

Definition zero : F := f_of_int 0.
Definition one : F := f_of_int 1.

(** [QRectF()] *)
Definition null_rect : QRectF :=
  {| rect_x := zero; rect_y := zero; rect_width := zero;
     rect_height := zero |}.

(** [QRectF.isValid]: positive width and height. *)
Definition isValid (r : QRectF) : bool :=
  flt zero (rect_width r) && flt zero (rect_height r).

(** [int / int] *)
Definition int_true_div (a b : Z) : result F :=
  if (b =? 0)%Z then Raise ZeroDivisionError else Ok (true_div a b).

(** [get_image_rect] *)
Definition get_image_rect (self : ImageCanvas) : result QRectF :=
  match pixmap self with
  | None => Ok null_rect
  | Some (pw, ph) =>
      let '(ww, wh) := widget_size self in
      match int_true_div pw ph with
      | Raise e => Raise e
      | Ok pix_ratio =>
          match int_true_div ww wh with
          | Raise e => Raise e
          | Ok widget_ratio =>
              if flt pix_ratio widget_ratio then
                let h := f_of_int wh in
                let w := fmul h pix_ratio in
                let x := fdiv (fsub (f_of_int ww) w) (f_of_int 2) in
                Ok {| rect_x := x; rect_y := zero; rect_width := w;
                      rect_height := h |}
              else if fzero pix_ratio then Raise ZeroDivisionError
              else
                let w := f_of_int ww in
                let h := fdiv w pix_ratio in
                let y := fdiv (fsub (f_of_int wh) h) (f_of_int 2) in
                Ok {| rect_x := zero; rect_y := y; rect_width := w;
                      rect_height := h |}
          end
      end
  end.

(** [max(0, min(1, v))] *)
Definition clamp (v : F) : F :=
  let m := if flt v one then v else one in
  if flt zero m then m else zero.

(** [get_image_space_pos]; [has_image] says that [self.image] is not
    [None]. *)
Definition get_image_space_pos (self : ImageCanvas) (has_image : bool)
    (widget_pos : Z * Z) : result point :=
  if negb has_image || match pixmap self with None => true | _ => false end
  then Ok (zero, zero)
  else
    match get_image_rect self with
    | Raise e => Raise e
    | Ok img_rect =>
        if negb (isValid img_rect) then Ok (zero, zero)
        else if fzero (rect_width img_rect) then Raise ZeroDivisionError
        else
          let x := fdiv (fsub (f_of_int (fst widget_pos)) (rect_x img_rect))
                        (rect_width img_rect) in
          if fzero (rect_height img_rect) then Raise ZeroDivisionError
          else
            let y := fdiv (fsub (f_of_int (snd widget_pos))
                                (rect_y img_rect))
                          (rect_height img_rect) in
            Ok (clamp x, clamp y)
    end.

(** [get_widget_space_pos] *)
Definition get_widget_space_pos (self : ImageCanvas) (has_image : bool)
    (image_pos : point) : result (Z * Z) :=
  if negb has_image || match pixmap self with None => true | _ => false end
  then Ok (0, 0)%Z
  else
    match get_image_rect self with
    | Raise e => Raise e
    | Ok img_rect =>
        if negb (isValid img_rect) then Ok (0, 0)%Z
        else
          match int_of (fadd (rect_x img_rect)
                             (fmul (fst image_pos) (rect_width img_rect)))
          with
          | Raise e => Raise e
          | Ok x =>
              match int_of (fadd (rect_y img_rect)
                                 (fmul (snd image_pos)
                                       (rect_height img_rect)))
              with
              | Raise e => Raise e
              | Ok y => Ok (x, y)
              end
          end
    end.

(** [(a - b).manhattanLength()] *)
Definition manhattan (a b : Z * Z) : Z :=
  (Z.abs (fst a - fst b) + Z.abs (snd a - snd b))%Z.

(** The loops of [mousePressEvent]: the index of the first point whose
    widget position is within 10 of the click.  [of_target] chooses
    [point.target] over [point.source]. *)
Fixpoint find_near (self : ImageCanvas) (has_image of_target : bool)
    (click : Z * Z) (pts : list MorphPoint) (i : nat)
  : result (option nat) :=
  match pts with
  | [] => Ok None
  | p :: rest =>
      match get_widget_space_pos self has_image
              (if of_target then target p else source p) with
      | Raise e => Raise e
      | Ok widget_curr =>
          if (manhattan click widget_curr <? 10)%Z then Ok (Some i)
          else find_near self has_image of_target click rest (S i)
      end
  end.

(** [self.points.pop(i)] for an index within the list *)
Definition pop (i : nat) (pts : list MorphPoint) : list MorphPoint :=
  firstn i pts ++ skipn (S i) pts.

Definition select (self : ImageCanvas) (i : nat) : ImageCanvas :=
  {| is_target := is_target self;
     pixmap := pixmap self;
     widget_size := widget_size self;
     selected_point := Some i;
     dragging := true;
     display_triangles := display_triangles self;
     parent_has_points_updated := parent_has_points_updated self |}.

(** [mousePressEvent].  The result is the canvas, the list of points, and
    whether [points_updated] was called on the parent. *)
Definition mousePressEvent (self : ImageCanvas) (has_image : bool)
    (pts : list MorphPoint) (b : button) (click : Z * Z)
  : result (ImageCanvas * list MorphPoint * bool) :=
  match b with
  | LeftButton =>
      match get_image_space_pos self has_image click with
      | Raise e => Raise e
      | Ok pos =>
          match find_near self has_image (is_target self) click pts 0 with
          | Raise e => Raise e
          | Ok (Some i) => Ok (select self i, pts, false)
          | Ok None =>
              if is_target self then Ok (self, pts, false)
              else
                Ok (self, pts ++ [{| source := pos; target := pos |}],
                    parent_has_points_updated self)
          end
      end
  | RightButton =>
      if is_target self then Ok (self, pts, false)
      else
        match find_near self has_image false click pts 0 with
        | Raise e => Raise e
        | Ok (Some i) => Ok (self, pop i pts, parent_has_points_updated self)
        | Ok None => Ok (self, pts, false)
        end
  | OtherButton => Ok (self, pts, false)
  end.

(** [self.points[i].target = pos] or [self.points[i].source = pos] *)
Fixpoint move_point (of_target : bool) (pos : point) (i : nat)
    (pts : list MorphPoint) : option (list MorphPoint) :=
  match pts, i with
  | [], _ => None
  | p :: rest, O =>
      Some ((if of_target then {| source := source p; target := pos |}
             else {| source := pos; target := target p |}) :: rest)
  | p :: rest, S j =>
      match move_point of_target pos j rest with
      | Some rest' => Some (p :: rest')
      | None => None
      end
  end.

(** [mouseMoveEvent] *)
Definition mouseMoveEvent (self : ImageCanvas) (has_image : bool)
    (pts : list MorphPoint) (at_pos : Z * Z)
  : result (list MorphPoint * bool) :=
  match dragging self, selected_point self with
  | true, Some i =>
      match get_image_space_pos self has_image at_pos with
      | Raise e => Raise e
      | Ok pos =>
          match move_point (is_target self) pos i pts with
          | Some pts' => Ok (pts', parent_has_points_updated self)
          | None => Raise IndexError
          end
      end
  | _, _ => Ok (pts, false)
  end.

(** [mouseReleaseEvent] *)
Definition mouseReleaseEvent (self : ImageCanvas) : ImageCanvas :=
  {| is_target := is_target self;
     pixmap := pixmap self;
     widget_size := widget_size self;
     selected_point := None;
     dragging := false;
     display_triangles := display_triangles self;
     parent_has_points_updated := parent_has_points_updated self |}.

(** The widget positions [update_display] computes for the points, in the
    order of the list. *)
Fixpoint widget_positions (self : ImageCanvas) (has_image : bool)
    (pts : list MorphPoint) : result (list (Z * Z)) :=
  match pts with
  | [] => Ok []
  | p :: rest =>
      match get_widget_space_pos self has_image
              (if is_target self then target p else source p) with
      | Raise e => Raise e
      | Ok pos =>
          match widget_positions self has_image rest with
          | Raise e => Raise e
          | Ok l => Ok (pos :: l)
          end
      end
  end.

(** [update_display], as far as it can raise.  Without an image it returns
    at once.  With one, it converts every point to widget space, once for
    the triangles (when they are displayed and there are three points or
    more) and once for the points themselves; neither conversion is inside
    the [try:], which only holds the triangulation and the drawing of its
    lines.  What is painted, and the pixmap handed to [setPixmap] at the
    end, are Qt's. *)
Definition update_display (self : ImageCanvas) (has_image : bool)
    (pts : list MorphPoint) : result unit :=
  if negb has_image then Ok tt
  else
    match (if display_triangles self && (3 <=? length pts)
           then widget_positions self has_image pts
           else Ok []) with
    | Raise e => Raise e
    | Ok _ =>
        match widget_positions self has_image pts with
        | Raise e => Raise e
        | Ok _ => Ok tt
        end
    end.

(** Within the closed unit interval, as [flt] sees it. *)
Definition unit_coordinate (v : F) : Prop :=
  v = zero \/ v = one \/ (flt zero v = true /\ flt v one = true).

End Canvas.

(** ** The window: the editor and its two canvases, event by event *)

Inductive action : Type :=
| act_load_image (chosen : option (option image))
| act_toggle_triangles
| act_clear_points
| act_reset_morph
| act_timer
| act_load_template (text : list ascii)
| act_press (on_target : bool) (b : button) (click : Z * Z)
| act_move (on_target : bool) (at_pos : Z * Z)
| act_release (on_target : bool)
| act_resize (on_target : bool) (pixmap : option (Z * Z)) (size : Z * Z).

Section Window.

Context {FO : FloatOps} {L : Library FO} {CF : CanvasFloats FO}
        {FT : FloatText FO}.

(** The two canvases share one list of points
    ([self.target_canvas.points = self.source_canvas.points]), changed in
    place only: it is the list of the editor record. *)
Record MainWindow : Type := {
  morph_editor : MorphEditor;
  source_canvas : ImageCanvas;
  target_canvas : ImageCanvas
}.

Definition with_editor (w : MainWindow) (ed : MorphEditor) : MainWindow :=
  {| morph_editor := ed;
     source_canvas := source_canvas w;
     target_canvas := target_canvas w |}.

Definition canvas_of (w : MainWindow) (on_target : bool) : ImageCanvas :=
  if on_target then target_canvas w else source_canvas w.

Definition with_canvas (w : MainWindow) (on_target : bool) (c : ImageCanvas)
  : MainWindow :=
  if on_target
  then {| morph_editor := morph_editor w; source_canvas := source_canvas w;
          target_canvas := c |}
  else {| morph_editor := morph_editor w; source_canvas := c;
          target_canvas := target_canvas w |}.

(** [self.image is not None] on the canvas *)
Definition canvas_has_image (w : MainWindow) (on_target : bool) : bool :=
  match (if on_target then target_canvas_image (morph_editor w)
         else source_canvas_image (morph_editor w)) with
  | Some _ => true
  | None => false
  end.

Definition toggle (c : ImageCanvas) : ImageCanvas :=
  {| is_target := is_target c;
     pixmap := pixmap c;
     widget_size := widget_size c;
     selected_point := selected_point c;
     dragging := dragging c;
     display_triangles := negb (display_triangles c);
     parent_has_points_updated := parent_has_points_updated c |}.

(** What changes without a handler of the program: the widget size, which
    the layout sets, and the pixmap shown, which [update_display] sets at
    its end, on every tick of the canvas's timer and inside [set_image].
    The event [act_resize] may put any pixmap and any size: the states the
    window reaches are among those the model reaches. *)
Definition set_geometry (c : ImageCanvas) (pm : option (Z * Z))
    (size : Z * Z) : ImageCanvas :=
  {| is_target := is_target c;
     pixmap := pm;
     widget_size := size;
     selected_point := selected_point c;
     dragging := dragging c;
     display_triangles := display_triangles c;
     parent_has_points_updated := parent_has_points_updated c |}.

(** The call of [self.parent().points_updated()] after a change of the
    points, when the parent has the method: the editor's [points_updated]. *)
Definition notify_parent (w : MainWindow) (notified : bool)
  : MainWindow * option exn :=
  if notified then
    match snd (points_updated (morph_editor w)) with
    | Ok ed => (with_editor w ed, None)
    | Raise e => (w, Some e)
    end
  else (w, None).

(** [load_image].  [chosen] is [None] when the dialog gives no file name,
    and otherwise what [cv2.imread] returns for the file: an image, or
    [None] for a file it cannot read, on which [cv2.cvtColor] raises.  The
    four assignments are made one after the other, and [set_image] repaints
    the canvas right after it has stored the image: an exception of
    [update_display] leaves the function with the assignments made so
    far. *)
Definition load_image (w : MainWindow) (chosen : option (option image))
  : MainWindow * option exn :=
  match chosen with
  | None => (w, None)
  | Some None => (w, Some cv2_error)
  | Some (Some bgr) =>
      let img := cvtColor_BGR2RGB bgr in
      let self := morph_editor w in
      let on_source :=
        {| points := points self;
           source_image := Some (copy img);
           target_image := Some (copy img);
           source_canvas_image := Some (copy (copy img));
           target_canvas_image := target_canvas_image self |} in
      match update_display (source_canvas w) true (points self) with
      | Raise e => (with_editor w on_source, Some e)
      | Ok _ =>
          (with_editor w
             (set_target_canvas_image on_source (copy img)),
           match update_display (target_canvas w) true (points self) with
           | Raise e => Some e
           | Ok _ => None
           end)
      end
  end.

(** One event: the window after it, and the exception that left the
    handler, if any. *)
Definition step (a : action) (w : MainWindow) : MainWindow * option exn :=
  match a with
  | act_load_image chosen => load_image w chosen
  | act_toggle_triangles =>
      ({| morph_editor := morph_editor w;
          source_canvas := toggle (source_canvas w);
          target_canvas := toggle (target_canvas w) |}, None)
  | act_clear_points =>
      (with_editor w (clear_points (morph_editor w)), None)
  | act_reset_morph =>
      (with_editor w (reset_morph (morph_editor w)), None)
  | act_timer =>
      match snd (update_morph (morph_editor w)) with
      | Ok ed => (with_editor w ed, None)
      | Raise e => (w, Some e)
      end
  | act_load_template text =>
      let '(ed, r) := load_template (morph_editor w) text in
      (with_editor w ed,
       match r with Ok _ => None | Raise e => Some e end)
  | act_press on_target b click =>
      match mousePressEvent (canvas_of w on_target)
              (canvas_has_image w on_target) (points (morph_editor w))
              b click
      with
      | Raise e => (w, Some e)
      | Ok (c, pts, notified) =>
          notify_parent
            (with_canvas (with_editor w (set_points (morph_editor w) pts))
                         on_target c)
            notified
      end
  | act_move on_target at_pos =>
      match mouseMoveEvent (canvas_of w on_target)
              (canvas_has_image w on_target) (points (morph_editor w))
              at_pos
      with
      | Raise e => (w, Some e)
      | Ok (pts, notified) =>
          notify_parent (with_editor w (set_points (morph_editor w) pts))
                        notified
      end
  | act_release on_target =>
      (with_canvas w on_target (mouseReleaseEvent (canvas_of w on_target)),
       None)
  | act_resize on_target pm size =>
      (with_canvas w on_target
         (set_geometry (canvas_of w on_target) pm size), None)
  end.

(** The window after a sequence of events. *)
Fixpoint run (actions : list action) (w : MainWindow) : MainWindow :=
  match actions with
  | [] => w
  | a :: rest => run rest (fst (step a w))
  end.

(** [ImageCanvas.__init__].  A label that was given no pixmap answers the
    null pixmap, of size 0 x 0. *)
Definition new_canvas (target : bool) (size : Z * Z) (has_method : bool)
  : ImageCanvas :=
  {| is_target := target;
     pixmap := Some (0, 0)%Z;
     widget_size := size;
     selected_point := None;
     dragging := false;
     display_triangles := true;
     parent_has_points_updated := has_method |}.

(** [MorphEditor.__init__] *)
Definition new_window (size_source size_target : Z * Z) (has_method : bool)
  : MainWindow :=
  {| morph_editor := new_editor;
     source_canvas := new_canvas false size_source has_method;
     target_canvas := new_canvas true size_target has_method |}.

(** What holds of the window at all times. *)
Definition consistent (w : MainWindow) : Prop :=
  source_canvas_image (morph_editor w) = source_image (morph_editor w)
  /\ target_image (morph_editor w) = source_image (morph_editor w)
  /\ (source_image (morph_editor w) = None ->
      target_canvas_image (morph_editor w) = None)
  /\ display_triangles (source_canvas w)
     = display_triangles (target_canvas w)
  /\ is_target (source_canvas w) = false
  /\ is_target (target_canvas w) = true.

(** Both ends of the point lie in the unit square. *)
Definition in_unit_square (p : MorphPoint) : Prop :=
  unit_coordinate (fst (source p)) /\ unit_coordinate (snd (source p))
  /\ unit_coordinate (fst (target p)) /\ unit_coordinate (snd (target p)).

Definition is_load_template (a : action) : bool :=
  match a with
  | act_load_template _ => true
  | _ => false
  end.

(** The editor [ed'] holds the images of [ed], but for a target canvas
    that may have been given a new image when there is a source image. *)
Definition same_images (ed ed' : MorphEditor) : Prop :=
  source_image ed' = source_image ed
  /\ target_image ed' = target_image ed
  /\ source_canvas_image ed' = source_canvas_image ed
  /\ (target_canvas_image ed' = target_canvas_image ed
      \/ source_image ed <> None).

End Window.

(** ** An exact instance

    Rational arithmetic stands for the floating-point operations: on
    dyadic values of small magnitude, such as every coordinate evaluated
    below, the floating-point operations are exact and agree with it. *)

#[local] Open Scope Q_scope.

Definition Q_floats : FloatOps := {|
  F := Q;
  f_of_int := fun z => inject_Z z;
  fsub := fun a b => Qred (a - b);
  fmul := fun a b => Qred (a * b);
  true_div := fun a b => Qred (inject_Z a / inject_Z b);
  float32 := fun a => Qred a;
  fmul32 := fun a b => Qred (a * b);
  fadd32 := fun a b => Qred (a + b);
  int32_of := fun a => Z.quot (Qnum a) (Zpos (Qden a))
|}.

Module Reference.

(** Twice the signed area of the triangle [a b c]. *)
Definition cross (a b c : Q * Q) : Q :=
  (fst b - fst a) * (snd c - snd a) - (snd b - snd a) * (fst c - fst a).

Definition collinear (tri : triangle (Q * Q)) : bool :=
  let '(a, b, c) := tri in Qeq_bool (cross a b c) 0.

(** Qhull on fewer than three points, or on three points in a line, reports
    an error; three points in general position form the one simplex.  For
    more points the triangulation is supplied by [more]. *)
Definition triangulate (more : list (Q * Q) -> result (list simplex))
    (pts : list (Q * Q)) : result (list simplex) :=
  match pts with
  | [] => Raise ValueError
  | [_] | [_; _] => Raise QhullError
  | [a; b; c] =>
      if collinear (a, b, c) then Raise QhullError
      else Ok [(0, 1, 2)%nat]
  | _ => more pts
  end.

(** The 2x3 matrix [[a b c] [d e f]], row by row. *)
Definition Matrix : Type := (Q * Q * Q * Q * Q * Q)%type.

(** The affine map taking the three source points to the three destination
    points, by Cramer's rule.  OpenCV solves the same system and leaves the
    matrix zero when the system is singular; it does not raise. *)
Definition affine (s d : triangle (Q * Q)) : result Matrix :=
  let '((x0, y0), (x1, y1), (x2, y2)) := s in
  let '((u0, v0), (u1, v1), (u2, v2)) := d in
  let D := x0 * (y1 - y2) + x1 * (y2 - y0) + x2 * (y0 - y1) in
  if Qeq_bool D 0 then Ok (0, 0, 0, 0, 0, 0)
  else
    let row := fun w0 w1 w2 : Q =>
      (Qred ((w0 * (y1 - y2) + w1 * (y2 - y0) + w2 * (y0 - y1)) / D),
       Qred ((w0 * (x2 - x1) + w1 * (x0 - x2) + w2 * (x1 - x0)) / D),
       Qred ((w0 * (x1 * y2 - x2 * y1) + w1 * (x2 * y0 - x0 * y2)
              + w2 * (x0 * y1 - x1 * y0)) / D)) in
    let '(a, b, c) := row u0 u1 u2 in
    let '(d', e, f) := row v0 v1 v2 in
    Ok (a, b, c, d', e, f).

(** The inverse map [cv2.warpAffine] applies to destination coordinates;
    a singular matrix is inverted to the zero map, as OpenCV does. *)
Definition invert (M : Matrix) : Matrix :=
  let '(a, b, c, d, e, f) := M in
  let det := a * e - b * d in
  let D := if Qeq_bool det 0 then 0 else / det in
  let A11 := e * D in
  let A22 := a * D in
  let A12 := - b * D in
  let A21 := - d * D in
  (A11, A12, - A11 * c - A12 * f, A21, A22, - A21 * c - A22 * f).

(** Nearest lattice point, halves rounded up. *)
Definition round (q : Q) : Z := Qfloor (q + (1 # 2)).

(** The source pixel a destination pixel is taken from: the nearest source
    pixel, and black outside the source (constant border).  Wherever the
    preimage has integer coordinates this is what the bilinear
    interpolation of [cv2.warpAffine] yields. *)
Definition sample (src : image) (M : Matrix) (x y : nat) : pixel :=
  let '(a, b, c, d, e, f) := invert M in
  let sx := round (a * inject_Z (Z.of_nat x) + b * inject_Z (Z.of_nat y) + c) in
  let sy := round (d * inject_Z (Z.of_nat x) + e * inject_Z (Z.of_nat y) + f) in
  if ((sx <? 0) || (sy <? 0))%Z then (0, 0, 0)%Z
  else
    match getpx src (Z.to_nat sx) (Z.to_nat sy) with
    | Some p => p
    | None => (0, 0, 0)%Z
    end.

Definition edge (a b : Z * Z) (x y : Z) : Z :=
  ((fst b - fst a) * (y - snd a) - (snd b - snd a) * (x - fst a))%Z.

(** The closed triangle (a segment when the vertices are in a line): the
    pixels [cv2.fillConvexPoly] paints for a triangle whose edges are
    horizontal, vertical or diagonal. *)
Definition inside (tri : triangle (Z * Z)) (x y : nat) : bool :=
  let '(a, b, c) := tri in
  let px := Z.of_nat x in
  let py := Z.of_nat y in
  let e1 := edge a b px py in
  let e2 := edge b c px py in
  let e3 := edge c a px py in
  let lo := fun u v w : Z => Z.min u (Z.min v w) in
  let hi := fun u v w : Z => Z.max u (Z.max v w) in
  (((0 <=? e1) && (0 <=? e2) && (0 <=? e3))
   || ((e1 <=? 0) && (e2 <=? 0) && (e3 <=? 0)))%Z
  && (lo (fst a) (fst b) (fst c) <=? px)%Z
  && (px <=? hi (fst a) (fst b) (fst c))%Z
  && (lo (snd a) (snd b) (snd c) <=? py)%Z
  && (py <=? hi (snd a) (snd b) (snd c))%Z.

Definition library (more : list (Q * Q) -> result (list simplex))
  : Library Q_floats :=
  @Build_Library Q_floats Matrix (triangulate more) affine
    (fun _ _ => None) sample (fun _ => None) inside.

(** No triangulation is supplied for more than three points. *)
Definition plain : Library Q_floats := library (fun _ => Raise QhullError).

(** A 4x4 image whose pixels all differ. *)
Definition picture : image :=
  tabulate 4 4 (fun x y => (Z.of_nat (100 + 10 * y + x), 50, 200)%Z).

Definition mk (sx sy tx ty : Q) : @MorphPoint Q_floats :=
  @Build_MorphPoint Q_floats (sx, sy) (tx, ty).

Definition editor (ps : list (@MorphPoint Q_floats)) : @MorphEditor Q_floats :=
  @Build_MorphEditor Q_floats ps (Some picture) (Some picture)
    (Some picture) (Some picture).

(** Three points at pixels (0,0), (2,0), (0,2), targets at the same place. *)
Definition corner : list (@MorphPoint Q_floats) :=
  [mk 0 0 0 0; mk (1 # 2) 0 (1 # 2) 0; mk 0 (1 # 2) 0 (1 # 2)].

(** Four points at pixels (0,0), (2,0), (4,0) and (2,2), targets at the same
    place.  The first three lie on the top row of the image. *)
Definition fan : list (@MorphPoint Q_floats) :=
  [mk 0 0 0 0; mk (1 # 2) 0 (1 # 2) 0; mk 1 0 1 0;
   mk (1 # 2) (1 # 2) (1 # 2) (1 # 2)].

(** The points of [fan] in pixel space. *)
Definition fan_pixels : list (Q * Q) := [(0, 0); (2, 0); (4, 0); (2, 2)].

Definition same_points (a b : list (Q * Q)) : bool :=
  (length a =? length b)%nat
  && forallb (fun pq => Qeq_bool (fst (fst pq)) (fst (snd pq))
                        && Qeq_bool (snd (fst pq)) (snd (snd pq)))
             (combine a b).

(** The simplices scipy returns for the points of [fan]: two triangles,
    none on the three collinear points.  No triangulation is supplied for
    other sets of more than three points. *)
Definition recorded : Library Q_floats :=
  library (fun pts => if same_points pts fan_pixels
                      then Ok [(1, 3, 0); (3, 1, 2)]%nat
                      else Raise QhullError).

(** The sources of [fan], with the target of the last point at pixel
    (2,4): the triangulation is that of [fan]. *)
Definition fan_moved : list (@MorphPoint Q_floats) :=
  [mk 0 0 0 0; mk (1 # 2) 0 (1 # 2) 0; mk 1 0 1 0;
   mk (1 # 2) (1 # 2) (1 # 2) 1].

(** The points of [corner] with every target one pixel right and down. *)
Definition shifted : list (@MorphPoint Q_floats) :=
  [mk 0 0 (1 # 4) (1 # 4); mk (1 # 2) 0 (3 # 4) (1 # 4);
   mk 0 (1 # 2) (1 # 4) (3 # 4)].

(** Two points only. *)
Definition pair : list (@MorphPoint Q_floats) :=
  [mk 0 0 0 0; mk (1 # 2) 0 (1 # 2) 0].

(** Three points on the top row, at pixels (0,0), (1,0) and (2,0). *)
Definition flat : list (@MorphPoint Q_floats) :=
  [mk 0 0 0 0; mk (1 # 4) 0 (1 # 4) 0; mk (1 # 2) 0 (1 # 2) 0].

(** Exact arithmetic for the canvas; [int] truncates. *)
Definition Q_canvas : CanvasFloats Q_floats :=
  @Build_CanvasFloats Q_floats
    (fun a b => Qred (a + b))
    (fun a b => Qred (a / b))
    (fun a b => negb (Qle_bool b a))
    (fun a => Qeq_bool a 0)
    (fun a => Ok (Z.quot (Qnum a) (Zpos (Qden a)))).

(** The source canvas, 400 by 400, showing a pixmap of the same size, so
    that the normalized point (x, y) is at widget position (400 x, 400 y). *)
Definition source_view : @ImageCanvas :=
  {| is_target := false;
     pixmap := Some (400, 400)%Z;
     widget_size := (400, 400)%Z;
     selected_point := None;
     dragging := false;
     display_triangles := true;
     parent_has_points_updated := false |}.

(** The same canvas while the point of index 2 is dragged. *)
Definition dragging_last : @ImageCanvas := select source_view 2.

(** The target canvas, of the same geometry. *)
Definition target_view : @ImageCanvas :=
  {| is_target := true;
     pixmap := Some (400, 400)%Z;
     widget_size := (400, 400)%Z;
     selected_point := None;
     dragging := false;
     display_triangles := true;
     parent_has_points_updated := false |}.

(** The texts of the floats used in the examples. *)
Definition text_table : list (Q * string) :=
  [(0, "0.0"%string); (1 # 4, "0.25"%string); (1 # 2, "0.5"%string);
   (3 # 4, "0.75"%string); (1, "1.0"%string)].

Definition repr_Q (q : Q) : list ascii :=
  match find (fun e => Qeq_bool (fst e) q) text_table with
  | Some e => list_ascii_of_string (snd e)
  | None => list_ascii_of_string "nan"
  end.

Definition float_Q (s : list ascii) : option Q :=
  match find (fun e => String.eqb (snd e) (string_of_list_ascii s))
             text_table with
  | Some e => Some (fst e)
  | None => None
  end.

Definition float_text : FloatText Q_floats :=
  @Build_FloatText Q_floats repr_Q float_Q.

(** A session at the window: an image is loaded and laid out, two points
    are set on the source canvas, the second one is taken up again and
    dragged, and the morph is reset. *)
Definition session : list action :=
  [act_load_image (Some (Some picture));
   act_resize false (Some (400, 400)%Z) (400, 400)%Z;
   act_resize true (Some (400, 400)%Z) (400, 400)%Z;
   act_press false LeftButton (100, 100)%Z;
   act_release false;
   act_press false LeftButton (200, 300)%Z;
   act_release false;
   act_press false LeftButton (202, 301)%Z;
   act_move false (500, 200)%Z;
   act_release false;
   act_press true LeftButton (100, 100)%Z;
   act_move true (300, -20)%Z;
   act_release true;
   act_timer;
   act_toggle_triangles].

End Reference.


#[local] Close Scope Q_scope.

(** * Properties *)

(** ** Lists *)

Lemma nth_error_seq (start len n : nat) :
  n < len -> nth_error (seq start len) n = Some (start + n).
Proof.
  revert start n. induction len as [| len IH]; intros start [| n] Hn;
    simpl; try lia.
  - f_equal. lia.
  - rewrite IH by lia. f_equal. lia.
Qed.

(** ** Rasters, pixel by pixel *)

Section Rasters.

Lemma nth_error_map2 (A B C : Type) (f : A -> B -> C)
    (l : list A) (l' : list B) (n : nat) :
  nth_error (map2 f l l') n =
  match nth_error l n, nth_error l' n with
  | Some a, Some b => Some (f a b)
  | _, _ => None
  end.
Proof.
  revert l' n. induction l as [| a l IH]; intros [| b l'] [| n]; simpl;
    trivial.
  destruct (nth_error l n); reflexivity.
Qed.

Lemma nth_error_mapi_from (A B : Type) (f : nat -> A -> B)
    (l : list A) (i n : nat) :
  nth_error (mapi_from f i l) n = option_map (f (i + n)) (nth_error l n).
Proof.
  revert i n. induction l as [| a l IH]; intros i [| n]; simpl; trivial.
  - now rewrite Nat.add_0_r.
  - rewrite IH. now rewrite Nat.add_succ_r.
Qed.

Lemma length_map2 (A B C : Type) (f : A -> B -> C) (l : list A) (l' : list B) :
  length l = length l' -> length (map2 f l l') = length l.
Proof.
  revert l'. induction l as [| a l IH]; intros [| b l'] H; simpl in *;
    try discriminate; trivial.
  f_equal. apply IH. now injection H.
Qed.

Lemma getpx_img_map (f : Z -> Z) (a : image) (x y : nat) :
  getpx (img_map f a) x y = option_map (pixel_map f) (getpx a x y).
Proof.
  unfold getpx, img_map. rewrite nth_error_map.
  destruct (nth_error a y) as [row |]; simpl; trivial.
  apply nth_error_map.
Qed.

Lemma getpx_img_map2 (f : Z -> Z -> Z) (a b : image) (x y : nat) :
  getpx (img_map2 f a b) x y =
  match getpx a x y, getpx b x y with
  | Some p, Some q => Some (pixel_map2 f p q)
  | _, _ => None
  end.
Proof.
  unfold getpx, img_map2. rewrite nth_error_map2.
  destruct (nth_error a y) as [ra |]; trivial.
  destruct (nth_error b y) as [rb |].
  - apply nth_error_map2.
  - now destruct (nth_error ra x).
Qed.

Lemma getpx_img_mapi (f : nat -> nat -> pixel -> pixel) (a : image)
    (x y : nat) :
  getpx (img_mapi f a) x y = option_map (f x y) (getpx a x y).
Proof.
  unfold getpx, img_mapi. rewrite nth_error_mapi_from.
  destruct (nth_error a y) as [row |]; simpl; trivial.
  now rewrite nth_error_mapi_from.
Qed.

Lemma getpx_tabulate (height width : nat) (f : nat -> nat -> pixel)
    (x y : nat) :
  x < width -> y < height -> getpx (tabulate height width f) x y = Some (f x y).
Proof.
  intros Hx Hy. unfold getpx, tabulate.
  rewrite nth_error_map, nth_error_seq by assumption. simpl.
  rewrite nth_error_map, nth_error_seq by assumption. reflexivity.
Qed.

Lemma getpx_in_shape (img : image) (x y : nat) :
  rectangular img -> in_shape img x y -> exists p, getpx img x y = Some p.
Proof.
  intros Hrect [Hy Hx]. unfold getpx. simpl in Hy.
  destruct (nth_error img y) as [row |] eqn:Hrow.
  - assert (Hlen : length row = snd (shape img)).
    { unfold rectangular in Hrect. rewrite Forall_forall in Hrect.
      apply Hrect. eapply nth_error_In; eassumption. }
    destruct (nth_error row x) as [p |] eqn:Hp; [eauto |].
    apply nth_error_None in Hp. lia.
  - apply nth_error_None in Hrow. lia.
Qed.

Lemma getpx_uint8 (img : image) (x y : nat) (p : pixel) :
  uint8_image img -> getpx img x y = Some p -> uint8_pixel p.
Proof.
  unfold uint8_image, getpx. intros Hu Hp.
  destruct (nth_error img y) as [row |] eqn:Hrow; [| discriminate].
  rewrite Forall_forall in Hu.
  specialize (Hu row (nth_error_In _ _ Hrow)).
  rewrite Forall_forall in Hu. apply Hu.
  eapply nth_error_In; eassumption.
Qed.

Lemma uint8_pixel_u8 (p : pixel) : uint8_pixel (pixel_map u8 p).
Proof.
  destruct p as [[a b] c]. unfold uint8_pixel, pixel_map, u8.
  repeat split; apply Z.mod_pos_bound; lia.
Qed.

Lemma pixel_map_u8_id (p : pixel) : uint8_pixel p -> pixel_map u8 p = p.
Proof.
  destruct p as [[a b] c]. unfold uint8_pixel, pixel_map, u8.
  intros [Ha [Hb Hc]]. now rewrite !Z.mod_small.
Qed.

Lemma getpx_composite (morphed warped mask : image) (x y : nat) :
  getpx (composite morphed warped mask) x y =
  match getpx morphed x y, getpx warped x y, getpx mask x y with
  | Some m, Some w, Some k => Some (composite_pixel m w k)
  | _, _, _ => None
  end.
Proof.
  unfold composite, img_add, img_mul, img_rsub.
  rewrite !getpx_img_map2, getpx_img_map.
  destruct (getpx morphed x y) as [m |], (getpx warped x y) as [w |],
    (getpx mask x y) as [k |]; reflexivity.
Qed.

(** Where the mask is 1 the warped pixel is taken. *)
Lemma composite_pixel_one (m w : pixel) :
  uint8_pixel w -> composite_pixel m w (1, 1, 1)%Z = w.
Proof.
  destruct m as [[m1 m2] m3], w as [[w1 w2] w3].
  unfold uint8_pixel, composite_pixel, pixel_map2, pixel_map, u8.
  intros [H1 [H2 H3]].
  change ((1 - 1) mod 256)%Z with 0%Z.
  rewrite !Z.mul_0_r, !Z.mul_1_r. change (0 mod 256)%Z with 0%Z.
  now rewrite !Z.add_0_l, !Zmod_mod, !Z.mod_small.
Qed.

(** Where the mask is 0 the pixel keeps its value. *)
Lemma composite_pixel_zero (m w : pixel) :
  uint8_pixel m -> composite_pixel m w (0, 0, 0)%Z = m.
Proof.
  destruct m as [[m1 m2] m3], w as [[w1 w2] w3].
  unfold uint8_pixel, composite_pixel, pixel_map2, pixel_map, u8.
  intros [H1 [H2 H3]].
  change ((1 - 0) mod 256)%Z with 1%Z.
  rewrite !Z.mul_0_r, !Z.mul_1_r. change (0 mod 256)%Z with 0%Z.
  now rewrite !Z.add_0_r, !Zmod_mod, !Z.mod_small.
Qed.

End Rasters.

Section Facts.

Context {FO : FloatOps} {L : Library FO}.

(** ** The effect monad *)

Lemma snd_bind (A B : Type) (m : Eff A) (f : A -> Eff B) :
  snd (bind m f) =
  match snd m with
  | Ok a => snd (f a)
  | Raise e => Raise e
  end.
Proof.
  destruct m as [l [a | e]]; simpl; trivial.
  destruct (f a); reflexivity.
Qed.

Lemma fst_bind (A B : Type) (m : Eff A) (f : A -> Eff B) :
  fst (bind m f) =
  fst m ++ match snd m with
           | Ok a => fst (f a)
           | Raise _ => []
           end.
Proof.
  destruct m as [l [a | e]]; simpl.
  - destruct (f a); reflexivity.
  - now rewrite app_nil_r.
Qed.

Lemma snd_try_except (A : Type) (body : Eff A) (handler : exn -> Eff A) :
  snd (try_except body handler) =
  match snd body with
  | Ok a => Ok a
  | Raise e => snd (handler e)
  end.
Proof.
  destruct body as [l [a | e]]; simpl; trivial.
  destruct (handler e); reflexivity.
Qed.

Lemma fst_try_except (A : Type) (body : Eff A) (handler : exn -> Eff A) :
  fst (try_except body handler) =
  fst body ++ match snd body with
              | Ok _ => []
              | Raise e => fst (handler e)
              end.
Proof.
  destruct body as [l [a | e]]; simpl.
  - now rewrite app_nil_r.
  - destruct (handler e); reflexivity.
Qed.

(** ** [interpolate_image] always hands back a frame *)

Lemma interpolate_image_cases (self : MorphEditor) (t : F) (img : image) :
  source_canvas_image self = Some img ->
  snd (interpolate_image self t) =
  match snd (interpolate_body img (snd (shape img)) (fst (shape img))
               (source_layout self img) (blended_layout self img t)) with
  | Ok frame => Ok frame
  | Raise _ => Ok img
  end.
Proof.
  intros Himg. unfold interpolate_image. rewrite Himg.
  unfold blended_layout, source_layout, target_layout.
  destruct (shape img) as [height width]; cbn [fst snd].
  rewrite snd_try_except.
  destruct (snd (interpolate_body _ _ _ _ _)); reflexivity.
Qed.

Lemma interpolate_image_returns (self : MorphEditor) (t : F) (img : image) :
  source_canvas_image self = Some img ->
  exists frame, snd (interpolate_image self t) = Ok frame.
Proof.
  intros Himg. rewrite (interpolate_image_cases self t Himg).
  destruct (snd (interpolate_body _ _ _ _ _)); eauto.
Qed.

(** ** The sequence of frames *)

Lemma frames_loop_runs (self : MorphEditor) (num_frames : nat)
    (canceled : nat -> bool) (img : image) :
  source_canvas_image self = Some img ->
  2 <= num_frames ->
  forall (range : list nat) (images : list image),
    (forall i, In i range -> canceled i = false) ->
    exists frames,
      snd (frames_loop self num_frames canceled range images)
      = Ok (Some (images ++ frames))
      /\ Forall2 (fun i frame =>
                    snd (interpolate_image self (frame_time num_frames i))
                    = Ok frame) range frames.
Proof.
  intros Himg Hn range.
  induction range as [| i rest IH]; intros images Hc.
  - exists []. simpl. rewrite app_nil_r. split; [reflexivity | constructor].
  - cbn [frames_loop]. rewrite (Hc i (or_introl eq_refl)).
    destruct (Z.eqb_spec (Z.of_nat num_frames - 1) 0) as [E | _]; [lia |].
    rewrite snd_bind. cbn [ret snd]. rewrite snd_bind.
    destruct (interpolate_image_returns self (frame_time num_frames i) Himg)
      as [frame Hf].
    unfold frame_time in Hf. rewrite Hf.
    destruct (IH (images ++ [frame])) as [frames [Hrun Hall]].
    { intros j Hj. apply Hc. now right. }
    exists (frame :: frames). split.
    + rewrite Hrun. now rewrite <- app_assoc.
    + constructor; assumption.
Qed.

Lemma Forall2_nth_error (A B : Type) (R : A -> B -> Prop)
    (l : list A) (l' : list B) :
  Forall2 R l l' ->
  forall n a, nth_error l n = Some a ->
  exists b, nth_error l' n = Some b /\ R a b.
Proof.
  induction 1 as [| a0 b0 l l' HR _ IH]; intros [| n] a Hn;
    simpl in Hn; try discriminate.
  - injection Hn as <-. exists b0. now split.
  - now apply IH.
Qed.

(** The forward pass, as both C4 and C5 need it. *)
Lemma forward_frames (self : MorphEditor) (num_frames : nat)
    (canceled : nat -> bool) (img : image) :
  source_canvas_image self = Some img ->
  2 <= num_frames ->
  (forall i, i < num_frames -> canceled i = false) ->
  exists frames,
    snd (frames_loop self num_frames canceled (seq 0 num_frames) [])
    = Ok (Some frames)
    /\ length frames = num_frames
    /\ forall i, i < num_frames ->
         exists frame,
           nth_error frames i = Some frame
           /\ snd (interpolate_image self (frame_time num_frames i))
              = Ok frame.
Proof.
  intros Himg Hn Hc.
  destruct (@frames_loop_runs self num_frames canceled img Himg Hn
              (seq 0 num_frames) [])
    as [frames [Hrun Hall]].
  { intros i Hi. apply Hc. apply in_seq in Hi. lia. }
  exists frames. split; [exact Hrun | split].
  - rewrite <- (Forall2_length Hall). apply length_seq.
  - intros i Hi.
    destruct (Forall2_nth_error Hall i (nth_error_seq 0 Hi))
      as [frame [Hf Hr]].
    exists frame. now split.
Qed.

(** C4.  With [loop] off and at least two frames requested, [save_gif]
    (when the progress dialog is never cancelled) builds exactly
    [num_frames] frames, and frame [i] is what [interpolate_image] returns
    at [t = i / (num_frames - 1)], for [i] from 0 to [num_frames - 1] in
    that order. *)
Theorem save_gif_frames_forward (self : MorphEditor) (num_frames : nat)
    (canceled : nat -> bool) (img : image) :
  source_canvas_image self = Some img ->
  2 <= num_frames ->
  (forall i, i < num_frames -> canceled i = false) ->
  exists frames,
    snd (save_gif_frames self num_frames false canceled) = Ok (Some frames)
    /\ length frames = num_frames
    /\ forall i, i < num_frames ->
         exists frame,
           nth_error frames i = Some frame
           /\ snd (interpolate_image self (frame_time num_frames i))
              = Ok frame.
Proof.
  intros Himg Hn Hc.
  destruct (forward_frames self canceled Himg Hn Hc)
    as [frames [Hrun [Hlen Hnth]]].
  exists frames. split; [| now split].
  unfold save_gif_frames. rewrite Himg, snd_bind, Hrun. reflexivity.
Qed.

(** C5.  With [loop] on and at least two frames requested, [save_gif]
    builds the [num_frames] forward frames followed by the whole forward
    list reversed: [2 * num_frames] frames, the last forward frame
    appearing twice in a row at the turn. *)
Theorem save_gif_frames_loop (self : MorphEditor) (num_frames : nat)
    (canceled : nat -> bool) (img : image) :
  source_canvas_image self = Some img ->
  2 <= num_frames ->
  (forall i, i < num_frames -> canceled i = false) ->
  exists forward,
    snd (save_gif_frames self num_frames true canceled)
    = Ok (Some (forward ++ rev forward))
    /\ length forward = num_frames
    /\ (forall i, i < num_frames ->
          exists frame,
            nth_error forward i = Some frame
            /\ snd (interpolate_image self (frame_time num_frames i))
               = Ok frame)
    /\ length (forward ++ rev forward) = 2 * num_frames
    /\ nth_error (forward ++ rev forward) num_frames
       = nth_error (forward ++ rev forward) (num_frames - 1).
Proof.
  intros Himg Hn Hc.
  destruct (forward_frames self canceled Himg Hn Hc)
    as [forward [Hrun [Hlen Hnth]]].
  exists forward. repeat split; trivial.
  - unfold save_gif_frames. rewrite Himg, snd_bind, Hrun. reflexivity.
  - rewrite length_app, length_rev. lia.
  - rewrite nth_error_app2 by lia.
    rewrite nth_error_app1 by lia.
    rewrite Hlen, Nat.sub_diag.
    destruct forward as [| f0 fs] using rev_ind; [simpl in Hlen; lia |].
    rewrite rev_app_distr. simpl.
    rewrite length_app in Hlen. simpl in Hlen.
    rewrite nth_error_app2 by lia.
    replace (num_frames - 1 - length fs) with 0 by lia. reflexivity.
Qed.

(** ** The loop over the simplices *)

Lemma warp_triangle_result (img : image) (width height : nat)
    (source_points dst_points : list point) (morphed : image) (s : simplex) :
  snd (warp_triangle img width height source_points dst_points morphed s) =
  match lookup3 source_points s, lookup3 dst_points s with
  | Some src_tri, Some dst_tri =>
      match getAffineTransform src_tri dst_tri with
      | Ok M =>
          match warp_error img M, fill_error (astype_int32 dst_tri) with
          | Some e, _ => Raise e
          | None, Some e => Raise e
          | None, None =>
              Ok (composite morphed
                    (tabulate height width
                       (fun x y => pixel_map u8 (warp_pixel img M x y)))
                    (img_mapi
                       (fun x y p =>
                          if covers (astype_int32 dst_tri) x y
                          then (1, 1, 1)%Z else p)
                       (zeros_like img)))
          end
      | Raise e => Raise e
      end
  | _, _ => Raise IndexError
  end.
Proof.
  unfold warp_triangle, index3, warpAffine, fillConvexPoly, call, ret, raise.
  destruct (lookup3 source_points s) as [src_tri |]; simpl; trivial.
  destruct (lookup3 dst_points s) as [dst_tri |]; simpl; trivial.
  destruct (getAffineTransform src_tri dst_tri) as [M | e]; simpl; trivial.
  destruct (warp_error img M); simpl; trivial.
  destruct (fill_error (astype_int32 dst_tri)); simpl; trivial.
Qed.

Lemma triangle_raises_iff (img : image) (width height : nat)
    (source_points dst_points : list point) (morphed : image) (s : simplex) :
  triangle_raises img source_points dst_points s <->
  exists e,
    snd (warp_triangle img width height source_points dst_points morphed s)
    = Raise e.
Proof.
  rewrite warp_triangle_result. unfold triangle_raises.
  destruct (lookup3 source_points s) as [src_tri |];
    [| split; eauto].
  destruct (lookup3 dst_points s) as [dst_tri |];
    [| split; eauto].
  destruct (getAffineTransform src_tri dst_tri) as [M | e];
    [| split; eauto].
  destruct (warp_error img M) as [e1 |],
    (fill_error (astype_int32 dst_tri)) as [e2 |]; split;
    try (intros _; eauto; fail);
    try (intros _; left; discriminate);
    try (intros _; right; discriminate).
  - intros [H | H]; congruence.
  - intros [e H]; discriminate.
Qed.

Lemma getpx_zeros_like (img : image) (x y : nat) :
  rectangular img -> in_shape img x y ->
  getpx (zeros_like img) x y = Some (0, 0, 0)%Z.
Proof.
  intros Hrect Hin. unfold zeros_like. rewrite getpx_img_map.
  destruct (getpx_in_shape Hrect Hin) as [[[a b] c] ->]. reflexivity.
Qed.

(** One pass of the loop body, seen at one pixel. *)
Lemma warp_triangle_pixel (img : image)
    (source_points dst_points : list point) (morphed m' : image)
    (s : simplex) (x y : nat) (p : pixel) :
  rectangular img -> in_shape img x y ->
  snd (warp_triangle img (snd (shape img)) (fst (shape img))
         source_points dst_points morphed s) = Ok m' ->
  getpx morphed x y = Some p -> uint8_pixel p ->
  let p' := if covered dst_points s x y
            then match warped_at img source_points dst_points s x y with
                 | Some q => q
                 | None => p
                 end
            else p in
  getpx m' x y = Some p' /\ uint8_pixel p'.
Proof.
  intros Hrect Hin Hrun Hp Hu. rewrite warp_triangle_result in Hrun.
  unfold covered, warped_at.
  destruct (lookup3 source_points s) as [src_tri |]; [| discriminate].
  destruct (lookup3 dst_points s) as [dst_tri |]; [| discriminate].
  destruct (getAffineTransform src_tri dst_tri) as [M | e]; [| discriminate].
  destruct (warp_error img M); [discriminate |].
  destruct (fill_error (astype_int32 dst_tri)); [discriminate |].
  injection Hrun as <-. cbv zeta.
  rewrite getpx_composite, Hp, getpx_img_mapi.
  destruct Hin as [Hy Hx].
  rewrite getpx_tabulate by assumption.
  rewrite getpx_zeros_like by (trivial; split; assumption). simpl.
  destruct (covers (astype_int32 dst_tri) x y).
  - rewrite composite_pixel_one by apply uint8_pixel_u8.
    split; [reflexivity | apply uint8_pixel_u8].
  - rewrite composite_pixel_zero by assumption. now split.
Qed.

(** The whole loop, seen at one pixel. *)
Lemma warp_triangles_pixel (img : image)
    (source_points dst_points : list point) (x y : nat) :
  rectangular img -> in_shape img x y ->
  forall (simplices : list simplex) (seed final : image) (p : pixel),
    snd (warp_triangles img (snd (shape img)) (fst (shape img))
           source_points dst_points seed simplices) = Ok final ->
    getpx seed x y = Some p -> uint8_pixel p ->
    getpx final x y
    = Some (painted img source_points dst_points x y p simplices)
    /\ uint8_pixel (painted img source_points dst_points x y p simplices).
Proof.
  intros Hrect Hin. unfold warp_triangles.
  induction simplices as [| s rest IH]; intros seed final p Hrun Hp Hu.
  - simpl in Hrun. injection Hrun as <-. now split.
  - cbn [for_each] in Hrun. rewrite snd_bind in Hrun.
    destruct (snd (warp_triangle _ _ _ _ _ seed s)) as [m' |] eqn:Hstep;
      [| discriminate].
    destruct (warp_triangle_pixel _ _ _ s Hrect Hin Hstep Hp Hu)
      as [Hp' Hu'].
    cbn [painted]. eapply IH; eassumption.
Qed.

(** The loop raises exactly when the body raises for some simplex. *)
Lemma warp_triangles_raises (img : image) (width height : nat)
    (source_points dst_points : list point) :
  forall (simplices : list simplex) (seed : image),
    (exists s, In s simplices
               /\ triangle_raises img source_points dst_points s)
    <-> exists e,
          snd (warp_triangles img width height source_points dst_points
                 seed simplices) = Raise e.
Proof.
  unfold warp_triangles.
  induction simplices as [| s rest IH]; intros seed.
  - simpl. split; [intros [s [[] _]] | intros [e H]; discriminate].
  - cbn [for_each]. rewrite snd_bind.
    destruct (snd (warp_triangle img width height source_points dst_points
                     seed s)) as [m' | e] eqn:Hstep.
    + rewrite <- (IH m'). split.
      * intros [s' [[<- | Hin] Hr]]; [| eauto].
        apply (triangle_raises_iff img width height _ _ seed) in Hr.
        destruct Hr as [e He]. congruence.
      * intros [s' [Hin Hr]]. exists s'. split; [now right | exact Hr].
    + split; [eauto |]. intros _. exists s. split; [now left |].
      apply (triangle_raises_iff img width height _ _ seed). eauto.
Qed.

Lemma painted_uncovered (img : image) (source_points dst_points : list point)
    (x y : nat) (simplices : list simplex) (p : pixel) :
  (forall s, In s simplices -> covered dst_points s x y = false) ->
  painted img source_points dst_points x y p simplices = p.
Proof.
  revert p. induction simplices as [| s rest IH]; intros p H; simpl; trivial.
  rewrite (H s (or_introl eq_refl)). apply IH.
  intros s' Hs'. apply H. now right.
Qed.

(** The last simplex that covers a pixel decides it. *)
Lemma painted_last (img : image) (source_points dst_points : list point)
    (x y : nat) (before after : list simplex) (d : simplex) (p q : pixel) :
  covered dst_points d x y = true ->
  warped_at img source_points dst_points d x y = Some q ->
  (forall s, In s after -> covered dst_points s x y = false) ->
  painted img source_points dst_points x y p (before ++ d :: after) = q.
Proof.
  intros Hd Hq Hafter. revert p.
  induction before as [| s rest IH]; intros p; simpl.
  - rewrite Hd, Hq. now apply painted_uncovered.
  - apply IH.
Qed.

(** ** The two composites, pixel by pixel *)

Lemma interpolate_body_result (img : image) (width height : nat)
    (source_points inter_points : list point) :
  snd (interpolate_body img width height source_points inter_points) =
  match Delaunay source_points with
  | Ok simplices =>
      match snd (warp_triangles img width height source_points inter_points
                   (zeros_like img) simplices) with
      | Ok morphed => Ok (astype_uint8 morphed)
      | Raise e => Raise e
      end
  | Raise e => Raise e
  end.
Proof.
  unfold interpolate_body. rewrite snd_bind. cbn [call snd].
  destruct (Delaunay source_points) as [simplices | e]; trivial.
  rewrite snd_bind.
  destruct (snd (warp_triangles _ _ _ _ _ _ _)); reflexivity.
Qed.

Lemma interpolate_image_result (self : MorphEditor) (t : F) (img : image) :
  source_canvas_image self = Some img ->
  snd (interpolate_image self t) =
  match Delaunay (source_layout self img) with
  | Ok simplices =>
      match snd (warp_triangles img (snd (shape img)) (fst (shape img))
                   (source_layout self img) (blended_layout self img t)
                   (zeros_like img) simplices) with
      | Ok morphed => Ok (astype_uint8 morphed)
      | Raise _ => Ok img
      end
  | Raise _ => Ok img
  end.
Proof.
  intros Himg. rewrite (interpolate_image_cases self t Himg).
  rewrite interpolate_body_result.
  destruct (Delaunay _) as [simplices | e]; trivial.
  destruct (snd (warp_triangles _ _ _ _ _ _ _)); reflexivity.
Qed.

Lemma update_morph_result (self : MorphEditor) (img : image) :
  source_image self = Some img ->
  3 <= length (points self) ->
  snd (update_morph self) =
  match Delaunay (source_layout self img) with
  | Ok simplices =>
      match snd (warp_triangles img (snd (shape img)) (fst (shape img))
                   (source_layout self img) (target_layout self img)
                   (copy img) simplices) with
      | Ok morphed =>
          Ok (set_target_canvas_image self (astype_uint8 morphed))
      | Raise _ => Ok self
      end
  | Raise _ => Ok self
  end.
Proof.
  intros Himg Hlen. unfold update_morph. rewrite Himg.
  destruct (Nat.ltb_spec (length (points self)) 3) as [Hlt | _]; [lia |].
  unfold source_layout, target_layout.
  destruct (shape img) as [height width]. cbn [fst snd].
  rewrite snd_try_except, snd_bind. cbn [call snd].
  destruct (Delaunay _) as [simplices | e]; trivial.
  rewrite snd_bind.
  destruct (snd (warp_triangles _ _ _ _ _ _ _)); reflexivity.
Qed.

Lemma no_triangle_raises (img : image) (width height : nat)
    (source_points dst_points : list point) (seed : image)
    (simplices : list simplex) :
  (forall s, In s simplices ->
             ~ triangle_raises img source_points dst_points s) ->
  exists final,
    snd (warp_triangles img width height source_points dst_points seed
           simplices) = Ok final.
Proof.
  intros Hno.
  destruct (snd (warp_triangles img width height source_points dst_points
                   seed simplices)) as [final | e] eqn:Hrun; [eauto |].
  assert (Hex : exists e',
             snd (warp_triangles img width height source_points dst_points
                    seed simplices) = Raise e') by eauto.
  apply warp_triangles_raises in Hex. destruct Hex as [s [Hin Hr]].
  now destruct (Hno s Hin).
Qed.

Lemma getpx_astype_uint8 (img : image) (x y : nat) (p : pixel) :
  getpx img x y = Some p -> uint8_pixel p ->
  getpx (astype_uint8 img) x y = Some p.
Proof.
  intros Hp Hu. unfold astype_uint8. rewrite getpx_img_map, Hp. simpl.
  now rewrite pixel_map_u8_id.
Qed.

(** [interpolate_image], when nothing raises: every pixel starts black and
    is then painted by the simplices that cover it. *)
Lemma interpolate_image_pixels (self : MorphEditor) (t : F) (img : image)
    (simplices : list simplex) :
  source_canvas_image self = Some img ->
  rectangular img ->
  Delaunay (source_layout self img) = Ok simplices ->
  (forall s, In s simplices ->
     ~ triangle_raises img (source_layout self img)
         (blended_layout self img t) s) ->
  exists frame,
    snd (interpolate_image self t) = Ok frame
    /\ forall x y, in_shape img x y ->
         getpx frame x y
         = Some (painted img (source_layout self img)
                   (blended_layout self img t) x y (0, 0, 0)%Z simplices).
Proof.
  intros Himg Hrect Htri Hno.
  rewrite (interpolate_image_result self t Himg), Htri.
  destruct (@no_triangle_raises img (snd (shape img)) (fst (shape img))
              _ _ (zeros_like img) _ Hno) as [final Hrun].
  rewrite Hrun. exists (astype_uint8 final). split; [reflexivity |].
  intros x y Hin.
  destruct (@warp_triangles_pixel img _ _ x y Hrect Hin simplices
              (zeros_like img) final (0, 0, 0)%Z Hrun) as [Hp Hu].
  - now apply getpx_zeros_like.
  - cbv; repeat split; discriminate.
  - now apply getpx_astype_uint8.
Qed.

(** [update_morph], when nothing raises: every pixel starts as the source
    pixel and is then painted by the simplices that cover it. *)
Lemma update_morph_pixels (self : MorphEditor) (img : image)
    (simplices : list simplex) :
  source_image self = Some img ->
  3 <= length (points self) ->
  rectangular img -> uint8_image img ->
  Delaunay (source_layout self img) = Ok simplices ->
  (forall s, In s simplices ->
     ~ triangle_raises img (source_layout self img)
         (target_layout self img) s) ->
  exists out,
    snd (update_morph self) = Ok (set_target_canvas_image self out)
    /\ forall x y p, in_shape img x y -> getpx img x y = Some p ->
         getpx out x y
         = Some (painted img (source_layout self img)
                   (target_layout self img) x y p simplices).
Proof.
  intros Himg Hlen Hrect Hu8 Htri Hno.
  rewrite (update_morph_result self Himg Hlen), Htri.
  destruct (@no_triangle_raises img (snd (shape img)) (fst (shape img))
              _ _ (copy img) _ Hno) as [final Hrun].
  rewrite Hrun. exists (astype_uint8 final). split; [reflexivity |].
  intros x y p Hin Hp.
  destruct (@warp_triangles_pixel img _ _ x y Hrect Hin simplices
              (copy img) final p Hrun) as [Hp' Hu]; trivial.
  - eapply getpx_uint8; eassumption.
  - now apply getpx_astype_uint8.
Qed.

(** ** When something raises *)

Lemma interpolate_image_except (self : MorphEditor) (t : F)
    (img : image) :
  source_canvas_image self = Some img ->
  (exists e, Delaunay (source_layout self img) = Raise e)
  \/ (exists simplices s,
        Delaunay (source_layout self img) = Ok simplices
        /\ In s simplices
        /\ triangle_raises img (source_layout self img)
             (blended_layout self img t) s) ->
  snd (interpolate_image self t) = Ok img
  /\ exists calls e, fst (interpolate_image self t) = calls ++ [ev_print e].
Proof.
  intros Himg Hraise.
  assert (Hbody : exists e,
            snd (interpolate_body img (snd (shape img)) (fst (shape img))
                   (source_layout self img) (blended_layout self img t))
            = Raise e).
  { rewrite interpolate_body_result.
    destruct Hraise as [[e He] | [simplices [s [Htri [Hin Hr]]]]].
    - rewrite He. eauto.
    - rewrite Htri.
      assert (Hex : exists s', In s' simplices
                /\ triangle_raises img (source_layout self img)
                     (blended_layout self img t) s') by eauto.
      apply (warp_triangles_raises img (snd (shape img)) (fst (shape img))
               _ _ simplices (zeros_like img)) in Hex.
      destruct Hex as [e He]. rewrite He. eauto. }
  destruct Hbody as [e He]. split.
  - rewrite (interpolate_image_cases self t Himg). now rewrite He.
  - unfold interpolate_image. rewrite Himg.
    unfold blended_layout, source_layout, target_layout in He.
    destruct (shape img) as [height width]. cbn [fst snd] in He.
    rewrite fst_try_except, He.
    eexists. exists e. reflexivity.
Qed.

(** C10.  Whenever a statement inside the [try:] of [interpolate_image]
    raises, be it the triangulation or, for some simplex, the indexing, the
    affine transform, the warp or the polygon fill, [interpolate_image]
    prints the error and returns the image of the source canvas itself,
    not a partial or empty frame.  The function only reads the editor, so
    the caller's state is what it was. *)
Theorem interpolate_image_falls_back (self : MorphEditor) (t : F)
    (img : image) :
  source_canvas_image self = Some img ->
  (exists e, Delaunay (source_layout self img) = Raise e)
  \/ (exists simplices s,
        Delaunay (source_layout self img) = Ok simplices
        /\ In s simplices
        /\ triangle_raises img (source_layout self img)
             (blended_layout self img t) s) ->
  snd (interpolate_image self t) = Ok img
  /\ exists calls e, fst (interpolate_image self t) = calls ++ [ev_print e].
Proof.
  apply interpolate_image_except.
Qed.

(** ** What the foreign routines are called with *)

Lemma warp_triangle_events (img : image) (width height : nat)
    (source_points dst_points : list point) (morphed : image) (s : simplex)
    (ev : event) :
  In ev (fst (warp_triangle img width height source_points dst_points
                morphed s)) ->
  exists src_tri dst_tri,
    lookup3 source_points s = Some src_tri
    /\ lookup3 dst_points s = Some dst_tri
    /\ (ev = ev_getAffineTransform src_tri dst_tri
        \/ (exists M, ev = ev_warpAffine M (width, height))
        \/ ev = ev_fillConvexPoly (astype_int32 dst_tri)).
Proof.
  unfold warp_triangle, index3, call, ret, raise.
  destruct (lookup3 source_points s) as [src_tri |]; simpl; [| tauto].
  destruct (lookup3 dst_points s) as [dst_tri |]; simpl; [| tauto].
  intros Hin. exists src_tri, dst_tri. repeat split.
  destruct (getAffineTransform src_tri dst_tri) as [M | e]; simpl in Hin.
  - destruct (warpAffine img M (width, height)); simpl in Hin.
    + destruct (fillConvexPoly _ _ _); simpl in Hin;
        intuition (subst; eauto).
    + intuition (subst; eauto).
  - intuition (subst; eauto).
Qed.

Lemma warp_triangles_events (img : image) (width height : nat)
    (source_points dst_points : list point) (ev : event) :
  forall (simplices : list simplex) (seed : image),
    In ev (fst (warp_triangles img width height source_points dst_points
                  seed simplices)) ->
    exists s morphed,
      In s simplices
      /\ In ev (fst (warp_triangle img width height source_points dst_points
                       morphed s)).
Proof.
  unfold warp_triangles.
  induction simplices as [| s rest IH]; intros seed Hin.
  - destruct Hin.
  - cbn [for_each] in Hin. rewrite fst_bind in Hin.
    apply in_app_or in Hin. destruct Hin as [Hin | Hin].
    + exists s, seed. split; [now left | exact Hin].
    + destruct (snd (warp_triangle _ _ _ _ _ seed s)) as [m' | e];
        [| destruct Hin].
      destruct (IH m' Hin) as [s' [morphed [Hs' Hev]]].
      exists s', morphed. split; [now right | exact Hev].
Qed.

Lemma interpolate_image_events (self : MorphEditor) (t : F) (img : image)
    (ev : event) :
  source_canvas_image self = Some img ->
  In ev (fst (interpolate_image self t)) ->
  ev = ev_Delaunay (source_layout self img)
  \/ (exists e, ev = ev_print e)
  \/ exists s morphed,
       In ev (fst (warp_triangle img (snd (shape img)) (fst (shape img))
                     (source_layout self img) (blended_layout self img t)
                     morphed s)).
Proof.
  intros Himg. unfold interpolate_image. rewrite Himg.
  unfold blended_layout, source_layout, target_layout.
  destruct (shape img) as [height width]. cbn [fst snd].
  rewrite fst_try_except. intros Hin. apply in_app_or in Hin.
  destruct Hin as [Hin | Hin].
  - unfold interpolate_body in Hin. rewrite fst_bind in Hin.
    cbn [call fst snd] in Hin. apply in_app_or in Hin.
    destruct Hin as [[<- | []] | Hin]; [now left |].
    destruct (Delaunay _) as [simplices | e]; [| destruct Hin].
    rewrite fst_bind in Hin. apply in_app_or in Hin.
    destruct Hin as [Hin | Hin].
    + apply warp_triangles_events in Hin.
      destruct Hin as [s [morphed [_ Hev]]]. right. right. eauto.
    + destruct (snd (warp_triangles _ _ _ _ _ _ _)); destruct Hin.
  - destruct (snd (interpolate_body _ _ _ _ _)) as [frame | e];
      [destruct Hin |].
    cbn in Hin. destruct Hin as [<- | []]. right. left. eauto.
Qed.

(** The calls one iteration of the loop makes. *)
Lemma warp_triangle_calls (img : image) (width height : nat)
    (source_points dst_points : list point) (morphed : image) (s : simplex)
    (src_tri dst_tri : triangle point) :
  lookup3 source_points s = Some src_tri ->
  lookup3 dst_points s = Some dst_tri ->
  In (ev_getAffineTransform src_tri dst_tri)
     (fst (warp_triangle img width height source_points dst_points
             morphed s))
  /\ (~ triangle_raises img source_points dst_points s ->
      In (ev_fillConvexPoly (astype_int32 dst_tri))
         (fst (warp_triangle img width height source_points dst_points
                 morphed s))).
Proof.
  intros Hs Hd.
  unfold triangle_raises, warp_triangle, index3, warpAffine, call, ret,
    raise.
  rewrite Hs, Hd. simpl.
  destruct (getAffineTransform src_tri dst_tri) as [M | e]; simpl.
  - destruct (warp_error img M) as [e |]; simpl.
    + split; [now left |]. intros Hno. destruct Hno. left. discriminate.
    + destruct (fillConvexPoly _ _ _); simpl; split; intros; auto.
  - split; [now left |]. intros Hno. now destruct Hno.
Qed.

(** The loop reaches every simplex that follows simplices on which nothing
    raises, and makes its calls with the rows of the two layouts. *)
Lemma warp_triangles_calls (img : image) (width height : nat)
    (source_points dst_points : list point) (s : simplex)
    (after : list simplex) (src_tri dst_tri : triangle point) :
  lookup3 source_points s = Some src_tri ->
  lookup3 dst_points s = Some dst_tri ->
  forall (before : list simplex) (seed : image),
    (forall s', In s' before ->
                ~ triangle_raises img source_points dst_points s') ->
    In (ev_getAffineTransform src_tri dst_tri)
       (fst (warp_triangles img width height source_points dst_points
               seed (before ++ s :: after)))
    /\ (~ triangle_raises img source_points dst_points s ->
        In (ev_fillConvexPoly (astype_int32 dst_tri))
           (fst (warp_triangles img width height source_points dst_points
                   seed (before ++ s :: after)))).
Proof.
  intros Hs Hd. unfold warp_triangles.
  induction before as [| b before IH]; intros seed Hno.
  - cbn [app for_each]. rewrite fst_bind.
    destruct (@warp_triangle_calls img width height source_points
                dst_points seed s src_tri dst_tri Hs Hd) as [Hg Hf].
    split; [| intros Hok]; apply in_or_app; left; auto.
  - cbn [app for_each]. rewrite fst_bind.
    destruct (snd (warp_triangle img width height source_points dst_points
                     seed b)) as [m' | e] eqn:Hb.
    + destruct (IH m') as [Hg Hf];
        [intros s' Hin; apply Hno; now right |].
      split; [| intros Hok]; apply in_or_app; right; auto.
    + destruct (Hno b (or_introl eq_refl)).
      apply (triangle_raises_iff img width height source_points dst_points
               seed b).
      eauto.
Qed.

Lemma interpolate_image_calls (self : MorphEditor) (t : F) (img : image)
    (before : list simplex) (s : simplex) (after : list simplex)
    (src_tri dst_tri : triangle point) :
  source_canvas_image self = Some img ->
  Delaunay (source_layout self img) = Ok (before ++ s :: after) ->
  (forall s', In s' before ->
     ~ triangle_raises img (source_layout self img)
         (blended_layout self img t) s') ->
  lookup3 (source_layout self img) s = Some src_tri ->
  lookup3 (blended_layout self img t) s = Some dst_tri ->
  In (ev_getAffineTransform src_tri dst_tri)
     (fst (interpolate_image self t))
  /\ (~ triangle_raises img (source_layout self img)
          (blended_layout self img t) s ->
      In (ev_fillConvexPoly (astype_int32 dst_tri))
         (fst (interpolate_image self t))).
Proof.
  intros Himg Htri Hno Hs Hd.
  destruct (@warp_triangles_calls img (snd (shape img)) (fst (shape img))
              _ _ s after src_tri dst_tri Hs Hd before (zeros_like img) Hno)
    as [Hg Hf].
  revert Hg Hf. unfold interpolate_image. rewrite Himg.
  revert Htri.
  unfold blended_layout, source_layout, target_layout.
  destruct (shape img) as [height width]. cbn [fst snd].
  intros Htri Hg Hf.
  rewrite fst_try_except. unfold interpolate_body.
  rewrite fst_bind. cbn [call fst snd]. rewrite Htri, fst_bind.
  split; [| intros Hok]; apply in_or_app; left; apply in_or_app; right;
    apply in_or_app; left; auto.
Qed.

(** C7.  For every correspondence [n] and every [t], the blended layout
    holds at index [n] the point [(1 - t) * source + t * target], where
    source and target are the normalized coordinates scaled by the width
    and the height of the source canvas image; and this blended layout is
    the destination layout of the composite.  Every simplex the loop
    reaches has its affine transform computed from its rows of the source
    layout to its rows of the blended layout, and its polygon filled with
    these rows of the blended layout; no destination triangle or polygon
    handed to the foreign routines is anything else; and when nothing
    raises, the frame returned is the composite painted over the blended
    layout. *)
Theorem interpolate_image_blends (self : MorphEditor) (t : F) (img : image) :
  source_canvas_image self = Some img ->
  let width := f_of_int (Z.of_nat (snd (shape img))) in
  let height := f_of_int (Z.of_nat (fst (shape img))) in
  (forall n p, nth_error (points self) n = Some p ->
     let sx := float32 (fmul (fst (source p)) width) in
     let sy := float32 (fmul (snd (source p)) height) in
     let tx := float32 (fmul (fst (target p)) width) in
     let ty := float32 (fmul (snd (target p)) height) in
     nth_error (blended_layout self img t) n
     = Some (fadd32 (fmul32 (fsub (f_of_int 1) t) sx) (fmul32 t tx),
             fadd32 (fmul32 (fsub (f_of_int 1) t) sy) (fmul32 t ty)))
  /\ (forall before s after src_tri dst_tri,
        Delaunay (source_layout self img) = Ok (before ++ s :: after) ->
        (forall s', In s' before ->
           ~ triangle_raises img (source_layout self img)
               (blended_layout self img t) s') ->
        lookup3 (source_layout self img) s = Some src_tri ->
        lookup3 (blended_layout self img t) s = Some dst_tri ->
        In (ev_getAffineTransform src_tri dst_tri)
           (fst (interpolate_image self t))
        /\ (~ triangle_raises img (source_layout self img)
                (blended_layout self img t) s ->
            In (ev_fillConvexPoly (astype_int32 dst_tri))
               (fst (interpolate_image self t))))
  /\ (forall src_tri dst_tri,
        In (ev_getAffineTransform src_tri dst_tri)
           (fst (interpolate_image self t)) ->
        exists s,
          lookup3 (source_layout self img) s = Some src_tri
          /\ lookup3 (blended_layout self img t) s = Some dst_tri)
  /\ (forall poly,
        In (ev_fillConvexPoly poly) (fst (interpolate_image self t)) ->
        exists s dst_tri,
          lookup3 (blended_layout self img t) s = Some dst_tri
          /\ poly = astype_int32 dst_tri)
  /\ (forall simplices,
        rectangular img ->
        Delaunay (source_layout self img) = Ok simplices ->
        (forall s, In s simplices ->
           ~ triangle_raises img (source_layout self img)
               (blended_layout self img t) s) ->
        exists frame,
          snd (interpolate_image self t) = Ok frame
          /\ forall x y, in_shape img x y ->
               getpx frame x y
               = Some (painted img (source_layout self img)
                         (blended_layout self img t) x y (0, 0, 0)%Z
                         simplices)).
Proof.
  intros Himg width height. split; [| split; [| split; [| split]]].
  - intros n p Hn. cbv zeta.
    unfold blended_layout, inter_points_of, source_layout, target_layout,
      source_points_of, target_points_of.
    rewrite nth_error_map2, !nth_error_map, Hn. reflexivity.
  - intros before s after src_tri dst_tri Htri Hno Hs Hd.
    exact (interpolate_image_calls self t before s after Himg Htri Hno
             Hs Hd).
  - intros src_tri dst_tri Hin.
    destruct (interpolate_image_events self t _ Himg Hin)
      as [H | [[e H] | [s [morphed H]]]]; try discriminate.
    apply warp_triangle_events in H.
    destruct H as [st [dt [Hs [Hd [H | [[M H] | H]]]]]]; try discriminate.
    injection H as -> ->. eauto.
  - intros poly Hin.
    destruct (interpolate_image_events self t _ Himg Hin)
      as [H | [[e H] | [s [morphed H]]]]; try discriminate.
    apply warp_triangle_events in H.
    destruct H as [st [dt [Hs [Hd [H | [[M H] | H]]]]]]; try discriminate.
    injection H as ->. eauto.
  - intros simplices Hrect Htri Hno.
    exact (interpolate_image_pixels self t Himg Hrect Htri Hno).
Qed.

(** ** No simplex is skipped *)

Lemma warped_at_defined (img : image) (source_points dst_points : list point)
    (s : simplex) (x y : nat) :
  ~ triangle_raises img source_points dst_points s ->
  exists q, warped_at img source_points dst_points s x y = Some q.
Proof.
  unfold triangle_raises, warped_at. intros Hno.
  destruct (lookup3 source_points s); [| now destruct Hno].
  destruct (lookup3 dst_points s); [| now destruct Hno].
  destruct (getAffineTransform _ _); [eauto | now destruct Hno].
Qed.

(** Neither loop has a per-triangle recovery, for a simplex with collinear
    source points or for any other.  Let [d] be any
    simplex of the triangulation.  If a statement of the loop body raises
    for [d], the whole composite is given up: [interpolate_image] returns
    the image of the source canvas and [update_morph] leaves the editor as
    it was.  If no simplex raises, [d] is composited like the others: every
    pixel its destination polygon covers, and no later polygon covers,
    holds the pixel of [d]'s warped image. *)
Theorem no_triangle_is_skipped (self : MorphEditor) (t : F) (img : image)
    (before after : list simplex) (d : simplex) :
  source_canvas_image self = Some img ->
  source_image self = Some img ->
  3 <= length (points self) ->
  rectangular img -> uint8_image img ->
  Delaunay (source_layout self img) = Ok (before ++ d :: after) ->
  let src := source_layout self img in
  let blended := blended_layout self img t in
  let tgt := target_layout self img in
  (triangle_raises img src blended d ->
   snd (interpolate_image self t) = Ok img)
  /\ ((forall s, In s (before ++ d :: after) ->
                 ~ triangle_raises img src blended s) ->
      exists frame,
        snd (interpolate_image self t) = Ok frame
        /\ forall x y, in_shape img x y ->
             covered blended d x y = true ->
             (forall s, In s after -> covered blended s x y = false) ->
             warped_at img src blended d x y <> None
             /\ getpx frame x y = warped_at img src blended d x y)
  /\ (triangle_raises img src tgt d -> snd (update_morph self) = Ok self)
  /\ ((forall s, In s (before ++ d :: after) ->
                 ~ triangle_raises img src tgt s) ->
      exists out,
        snd (update_morph self) = Ok (set_target_canvas_image self out)
        /\ forall x y, in_shape img x y ->
             covered tgt d x y = true ->
             (forall s, In s after -> covered tgt s x y = false) ->
             warped_at img src tgt d x y <> None
             /\ getpx out x y = warped_at img src tgt d x y).
Proof.
  intros Hcanvas Himg Hlen Hrect Hu8 Htri src blended tgt.
  assert (Hd : In d (before ++ d :: after))
    by (apply in_or_app; right; now left).
  repeat split.
  - intros Hr.
    apply (interpolate_image_except self t Hcanvas).
    right. exists (before ++ d :: after), d. now repeat split.
  - intros Hno.
    destruct (interpolate_image_pixels self t Hcanvas Hrect Htri Hno)
      as [frame [Hrun Hpx]].
    exists frame. split; [exact Hrun |].
    intros x y Hin Hcov Hafter.
    destruct (@warped_at_defined _ _ _ _ x y (Hno d Hd)) as [q Hq].
    fold src blended in Hq. rewrite Hq. split; [discriminate |].
    rewrite (Hpx x y Hin). f_equal. now apply painted_last.
  - intros Hr. rewrite (update_morph_result self Himg Hlen), Htri.
    assert (Hex : exists s, In s (before ++ d :: after)
                            /\ triangle_raises img src tgt s) by eauto.
    apply (warp_triangles_raises img (snd (shape img)) (fst (shape img))
             _ _ _ (copy img)) in Hex.
    destruct Hex as [e He]. unfold src, tgt in He. now rewrite He.
  - intros Hno.
    destruct (update_morph_pixels self Himg Hlen Hrect Hu8 Htri Hno)
      as [out [Hrun Hpx]].
    exists out. split; [exact Hrun |].
    intros x y Hin Hcov Hafter.
    destruct (@warped_at_defined _ _ _ _ x y (Hno d Hd)) as [q Hq].
    fold src tgt in Hq. rewrite Hq. split; [discriminate |].
    destruct (getpx_in_shape Hrect Hin) as [p Hp].
    rewrite (Hpx x y p Hin Hp). f_equal. now apply painted_last.
Qed.

(** ** The seed of each composite *)

(** [update_morph] seeds its output with a copy of the source image: when
    nothing raises, every pixel that no destination polygon covers is the
    source pixel. *)
Theorem update_morph_keeps_uncovered_pixels (self : MorphEditor)
    (img : image) (simplices : list simplex) :
  source_image self = Some img ->
  3 <= length (points self) ->
  rectangular img -> uint8_image img ->
  Delaunay (source_layout self img) = Ok simplices ->
  (forall s, In s simplices ->
     ~ triangle_raises img (source_layout self img)
         (target_layout self img) s) ->
  exists out,
    snd (update_morph self) = Ok (set_target_canvas_image self out)
    /\ forall x y, in_shape img x y ->
         (forall s, In s simplices ->
            covered (target_layout self img) s x y = false) ->
         getpx out x y = getpx img x y.
Proof.
  intros Himg Hlen Hrect Hu8 Htri Hno.
  destruct (update_morph_pixels self Himg Hlen Hrect Hu8 Htri Hno)
    as [out [Hrun Hpx]].
  exists out. split; [exact Hrun |].
  intros x y Hin Hcov.
  destruct (getpx_in_shape Hrect Hin) as [p Hp].
  rewrite (Hpx x y p Hin Hp), Hp. f_equal. now apply painted_uncovered.
Qed.

(** [interpolate_image] seeds its output with zeros: when nothing raises,
    every pixel that no destination polygon covers is black, whatever the
    source pixel is. *)
Theorem interpolate_image_blackens_uncovered_pixels (self : MorphEditor)
    (t : F) (img : image) (simplices : list simplex) :
  source_canvas_image self = Some img ->
  rectangular img ->
  Delaunay (source_layout self img) = Ok simplices ->
  (forall s, In s simplices ->
     ~ triangle_raises img (source_layout self img)
         (blended_layout self img t) s) ->
  exists frame,
    snd (interpolate_image self t) = Ok frame
    /\ forall x y, in_shape img x y ->
         (forall s, In s simplices ->
            covered (blended_layout self img t) s x y = false) ->
         getpx frame x y = Some (0, 0, 0)%Z.
Proof.
  intros Himg Hrect Htri Hno.
  destruct (interpolate_image_pixels self t Himg Hrect Htri Hno)
    as [frame [Hrun Hpx]].
  exists frame. split; [exact Hrun |].
  intros x y Hin Hcov.
  rewrite (Hpx x y Hin). f_equal. now apply painted_uncovered.
Qed.

(** [update_morph] does nothing below three points: no foreign routine is
    called and the editor is returned as it was. *)
Theorem update_morph_below_three_points (self : MorphEditor) :
  length (points self) < 3 -> update_morph self = ([], Ok self).
Proof.
  intros Hlen. unfold update_morph.
  destruct (source_image self) as [img |]; [| reflexivity].
  destruct (Nat.ltb_spec (length (points self)) 3) as [_ | Hge];
    [reflexivity | lia].
Qed.

(** [interpolate_image] calls [Delaunay] first, however few points there
    are. *)
Theorem interpolate_image_always_triangulates (self : MorphEditor) (t : F)
    (img : image) :
  source_canvas_image self = Some img ->
  exists rest,
    fst (interpolate_image self t)
    = ev_Delaunay (source_layout self img) :: rest.
Proof.
  intros Himg. unfold interpolate_image. rewrite Himg.
  unfold blended_layout, source_layout, target_layout.
  destruct (shape img) as [height width]. cbn [fst snd].
  rewrite fst_try_except. unfold interpolate_body at 1.
  rewrite fst_bind. cbn [call fst app]. eauto.
Qed.

End Facts.

(** * Templates *)

Section TemplateFacts.

Context {FO : FloatOps} {FT : FloatText FO}.

Lemma special_false (c : ascii) :
  special c = false ->
  Ascii.eqb c delimiter = false /\ Ascii.eqb c quotechar = false
  /\ is_eol c = false /\ Ascii.eqb c CR = false.
Proof.
  unfold special, is_eol. intros H.
  apply orb_false_elim in H. destruct H as [H Heol].
  apply orb_false_elim in H. destruct H as [Hd Hq].
  repeat split; trivial.
  apply orb_false_elim in Heol. tauto.
Qed.

Lemma csv_field_plain (f : list ascii) :
  existsb special f = false -> csv_field f = f.
Proof. unfold csv_field. now intros ->. Qed.

Lemma universal_newlines_plain (f rest : list ascii) :
  existsb special f = false ->
  universal_newlines (f ++ rest) = f ++ universal_newlines rest.
Proof.
  induction f as [| c f IH]; intros H; simpl in *; trivial.
  apply orb_false_elim in H. destruct H as [Hc Hf].
  destruct (special_false c Hc) as [_ [_ [_ ->]]].
  now rewrite IH.
Qed.

Lemma universal_newlines_delimiter (rest : list ascii) :
  universal_newlines (delimiter :: rest) = delimiter :: universal_newlines rest.
Proof. reflexivity. Qed.

Lemma universal_newlines_lineterminator (rest : list ascii) :
  universal_newlines (lineterminator ++ rest) = LF :: universal_newlines rest.
Proof. reflexivity. Qed.

(** Inside a field, plain characters are collected. *)
Lemma reader_in_field (f : list ascii) :
  existsb special f = false ->
  forall (acc : list ascii) (row : list (list ascii)) (rest : list ascii),
    reader IN_FIELD acc row (f ++ rest) = reader IN_FIELD (acc ++ f) row rest.
Proof.
  induction f as [| c f IH]; intros H acc row rest; simpl in *.
  - now rewrite app_nil_r.
  - apply orb_false_elim in H. destruct H as [Hc Hf].
    destruct (special_false c Hc) as [-> [_ [-> _]]].
    rewrite (IH Hf). now rewrite <- app_assoc.
Qed.

(** A plain field followed by the delimiter joins the record. *)
Lemma reader_field_delimiter (st : reader_state) (f : list ascii) :
  st = START_RECORD \/ st = START_FIELD ->
  existsb special f = false ->
  forall (row : list (list ascii)) (rest : list ascii),
    reader st [] row (f ++ delimiter :: rest)
    = reader START_FIELD [] (row ++ [f]) rest.
Proof.
  intros Hst H row rest. destruct f as [| c f].
  - destruct Hst as [-> | ->]; reflexivity.
  - simpl in H. apply orb_false_elim in H. destruct H as [Hc Hf].
    destruct (special_false c Hc) as [Hd [Hq [He _]]].
    assert (Hgo : reader st [] row ((c :: f) ++ delimiter :: rest)
                  = reader IN_FIELD [c] row (f ++ delimiter :: rest)).
    { destruct Hst as [-> | ->]; simpl; now rewrite He, Hq, Hd. }
    rewrite Hgo, (@reader_in_field f Hf). reflexivity.
Qed.

(** A plain field followed by the end of the line closes the record. *)
Lemma reader_field_eol (f : list ascii) :
  existsb special f = false ->
  forall (row : list (list ascii)) (rest : list ascii),
    reader START_FIELD [] row (f ++ LF :: rest)
    = (row ++ [f]) :: reader START_RECORD [] [] rest.
Proof.
  intros H row rest. destruct f as [| c f].
  - reflexivity.
  - simpl in H. apply orb_false_elim in H. destruct H as [Hc Hf].
    destruct (special_false c Hc) as [Hd [Hq [He _]]].
    simpl. rewrite He, Hq, Hd, (@reader_in_field f Hf). reflexivity.
Qed.

Lemma reader_template_row (p : MorphPoint) (rest : list ascii) :
  Forall formats_well (coordinates p) ->
  reader START_RECORD [] [] (universal_newlines (writerow (template_row p) ++ rest))
  = template_row p :: reader START_RECORD [] [] (universal_newlines rest).
Proof.
  unfold coordinates, template_row, writerow. intros Hw.
  destruct (Forall_inv Hw) as [_ Ha].
  apply Forall_inv_tail in Hw. destruct (Forall_inv Hw) as [_ Hb].
  apply Forall_inv_tail in Hw. destruct (Forall_inv Hw) as [_ Hc].
  apply Forall_inv_tail in Hw. destruct (Forall_inv Hw) as [_ Hd].
  clear Hw.
  simpl map. rewrite !csv_field_plain by assumption.
  cbn [join]. repeat (rewrite <- app_assoc; cbn [app]).
  repeat (rewrite universal_newlines_plain by assumption;
          try rewrite universal_newlines_delimiter).
  rewrite universal_newlines_lineterminator.
  rewrite (@reader_field_delimiter START_RECORD _ (or_introl eq_refl) Ha).
  rewrite (@reader_field_delimiter START_FIELD _ (or_intror eq_refl) Hb).
  rewrite (@reader_field_delimiter START_FIELD _ (or_intror eq_refl) Hc).
  rewrite (@reader_field_eol _ Hd). reflexivity.
Qed.

Lemma parse_template_row (p : MorphPoint) :
  Forall formats_well (coordinates p) -> parse_row (template_row p) = Ok p.
Proof.
  unfold coordinates, template_row, parse_row. intros Hw.
  destruct (Forall_inv Hw) as [Ha _].
  apply Forall_inv_tail in Hw. destruct (Forall_inv Hw) as [Hb _].
  apply Forall_inv_tail in Hw. destruct (Forall_inv Hw) as [Hc _].
  apply Forall_inv_tail in Hw. destruct (Forall_inv Hw) as [Hd _].
  rewrite Ha, Hb, Hc, Hd.
  destruct p as [[sx sy] [tx ty]]. reflexivity.
Qed.

Lemma load_saved_rows (ps : list MorphPoint) :
  Forall (fun p => Forall formats_well (coordinates p)) ps ->
  forall acc,
    load_rows
      (reader START_RECORD [] []
         (universal_newlines
            (flat_map (fun p => writerow (template_row p)) ps)))
      acc
    = (acc ++ ps, Ok tt).
Proof.
  induction 1 as [| p ps Hp _ IH]; intros acc.
  - simpl. now rewrite app_nil_r.
  - cbn [flat_map]. rewrite (@reader_template_row p _ Hp).
    cbn [load_rows]. rewrite (@parse_template_row p Hp), IH.
    now rewrite <- app_assoc.
Qed.

(** C8.  Writing the correspondences with [save_template] (one record per
    line, the four floats source x, source y, target x, target y, no
    header) and reading the text back with [load_template] yields the same
    correspondences, as many and in the same order, provided every float
    written reads back as itself (the float formatting's precision). *)
Theorem template_round_trip (self other : MorphEditor) :
  Forall (fun p => Forall formats_well (coordinates p)) (points self) ->
  load_template other (save_template self)
  = (set_points other (points self), Ok tt)
  /\ length (points (fst (load_template other (save_template self))))
     = length (points self).
Proof.
  intros Hw.
  assert (Hload : load_template other (save_template self)
                  = (set_points other (points self), Ok tt)).
  { unfold load_template, save_template.
    now rewrite (@load_saved_rows _ Hw []). }
  split; [exact Hload | now rewrite Hload].
Qed.

End TemplateFacts.

(** * The other operations of the editor *)

Section EditorFacts.

Context {FO : FloatOps} {L : Library FO}.

(** The guard of [points_updated] repeats the guard of [update_morph]:
    calling [points_updated] is calling [update_morph], in every state. *)
Theorem points_updated_is_update_morph (self : MorphEditor) :
  points_updated self = update_morph self.
Proof.
  unfold points_updated, update_morph.
  destruct (source_image self) as [img |]; [| reflexivity].
  destruct (Nat.leb_spec 3 (length (points self))) as [Hge | Hlt],
    (Nat.ltb_spec (length (points self)) 3) as [Hlt' | Hge'];
    try lia; reflexivity.
Qed.

Lemma update_morph_outcomes (self : MorphEditor) :
  snd (update_morph self) = Ok self
  \/ exists out,
       snd (update_morph self) = Ok (set_target_canvas_image self out).
Proof.
  unfold update_morph.
  destruct (source_image self) as [img |]; [| now left].
  destruct (length (points self) <? 3); [now left |].
  destruct (shape img) as [height width].
  rewrite snd_try_except, snd_bind. cbn [call snd].
  destruct (Delaunay _) as [simplices | e]; [| now left].
  rewrite snd_bind.
  destruct (snd (warp_triangles _ _ _ _ _ _ _)) as [morphed | e];
    [right; eexists; reflexivity | now left].
Qed.

(** [update_morph] never lets an exception out, and the only part of the
    editor it can change is the image of the target canvas. *)
Theorem update_morph_only_sets_target_canvas (self : MorphEditor) :
  exists self',
    snd (update_morph self) = Ok self'
    /\ points self' = points self
    /\ source_image self' = source_image self
    /\ target_image self' = target_image self
    /\ source_canvas_image self' = source_canvas_image self.
Proof.
  destruct (update_morph_outcomes self) as [H | [out H]];
    eexists; (split; [exact H |]); repeat split.
Qed.

(** When the triangulation raises, or a statement of the loop body raises
    for some simplex, [update_morph] prints the error and leaves the whole
    editor, the image of the target canvas included, as it was. *)
Theorem update_morph_keeps_canvas_on_error (self : MorphEditor)
    (img : image) :
  source_image self = Some img ->
  3 <= length (points self) ->
  (exists e, Delaunay (source_layout self img) = Raise e)
  \/ (exists simplices s,
        Delaunay (source_layout self img) = Ok simplices
        /\ In s simplices
        /\ triangle_raises img (source_layout self img)
             (target_layout self img) s) ->
  snd (update_morph self) = Ok self
  /\ exists calls e, fst (update_morph self) = calls ++ [ev_print e].
Proof.
  intros Himg Hlen Hraise.
  assert (Hbody : exists e,
            match Delaunay (source_layout self img) with
            | Ok simplices =>
                match snd (warp_triangles img (snd (shape img))
                             (fst (shape img)) (source_layout self img)
                             (target_layout self img) (copy img) simplices)
                with
                | Ok _ => None
                | Raise e => Some e
                end
            | Raise e => Some e
            end = Some e).
  { destruct Hraise as [[e He] | [simplices [s [Htri [Hin Hr]]]]].
    - rewrite He. eauto.
    - rewrite Htri.
      assert (Hex : exists s', In s' simplices
                /\ triangle_raises img (source_layout self img)
                     (target_layout self img) s') by eauto.
      apply (warp_triangles_raises img (snd (shape img)) (fst (shape img))
               _ _ simplices (copy img)) in Hex.
      destruct Hex as [e He]. rewrite He. eauto. }
  destruct Hbody as [e He]. split.
  - rewrite (update_morph_result self Himg Hlen).
    destruct (Delaunay _) as [simplices | e']; [| reflexivity].
    destruct (snd (warp_triangles _ _ _ _ _ _ _)); [discriminate | reflexivity].
  - unfold update_morph. rewrite Himg.
    destruct (Nat.ltb_spec (length (points self)) 3) as [Hlt | _]; [lia |].
    unfold source_layout, target_layout in He.
    destruct (shape img) as [height width]. cbn [fst snd] in He.
    rewrite fst_try_except.
    match goal with
    | |- context [snd ?b] => assert (Hb : snd b = Raise e)
    end.
    { rewrite snd_bind. cbn [call snd]. revert He.
      destruct (Delaunay (source_points_of width height (points self)))
        as [simplices | e']; cbv beta iota;
        [| intros He; congruence].
      rewrite snd_bind.
      destruct (snd (warp_triangles _ _ _ _ _ _ _)) as [m | e'];
        cbv beta iota; intros He; congruence. }
    rewrite Hb. eexists. exists e. reflexivity.
Qed.

Lemma update_morph_events (self : MorphEditor) (img : image) (ev : event) :
  source_image self = Some img ->
  In ev (fst (update_morph self)) ->
  ev = ev_Delaunay (source_layout self img)
  \/ (exists e, ev = ev_print e)
  \/ exists s morphed,
       In ev (fst (warp_triangle img (snd (shape img)) (fst (shape img))
                     (source_layout self img) (target_layout self img)
                     morphed s)).
Proof.
  intros Himg. unfold update_morph. rewrite Himg.
  destruct (length (points self) <? 3); [intros [] |].
  unfold source_layout, target_layout.
  destruct (shape img) as [height width]. cbn [fst snd].
  rewrite fst_try_except. intros Hin. apply in_app_or in Hin.
  destruct Hin as [Hin | Hin].
  - rewrite fst_bind in Hin. cbn [call fst snd] in Hin.
    apply in_app_or in Hin.
    destruct Hin as [[<- | []] | Hin]; [now left |].
    destruct (Delaunay _) as [simplices | e]; [| destruct Hin].
    rewrite fst_bind in Hin. apply in_app_or in Hin.
    destruct Hin as [Hin | Hin].
    + apply warp_triangles_events in Hin.
      destruct Hin as [s [morphed [_ Hev]]]. right. right. eauto.
    + destruct (snd (warp_triangles _ _ _ _ _ _ _)); destruct Hin.
  - rewrite snd_bind in Hin. cbn [call snd] in Hin.
    destruct (Delaunay _) as [simplices | e].
    + rewrite snd_bind in Hin.
      destruct (snd (warp_triangles _ _ _ _ _ _ _)) as [m | e];
        [destruct Hin |].
      cbn in Hin. destruct Hin as [<- | []]. right. left. eauto.
    + cbn in Hin. destruct Hin as [<- | []]. right. left. eauto.
Qed.

Lemma lookup3_map (A : Type) (f g : A -> point) (l : list A) (s : simplex)
    (a b : triangle point) :
  (forall x, f x = g x) ->
  lookup3 (map f l) s = Some a -> lookup3 (map g l) s = Some b -> a = b.
Proof.
  intros Hfg. rewrite (map_ext f g Hfg). congruence.
Qed.

(** [reset_morph] makes the morph the identity layout: the target layout
    becomes the source layout, the source layout stays, and from then on
    [update_morph] asks [getAffineTransform] only for maps of a triangle to
    itself. *)
Theorem reset_morph_makes_identity_layout (self : MorphEditor) :
  (forall img,
     target_layout (reset_morph self) img = source_layout self img
     /\ source_layout (reset_morph self) img = source_layout self img)
  /\ length (points (reset_morph self)) = length (points self)
  /\ forall src_tri dst_tri,
       In (ev_getAffineTransform src_tri dst_tri)
          (fst (update_morph (reset_morph self))) ->
       src_tri = dst_tri.
Proof.
  assert (Hlay : forall img,
     target_layout (reset_morph self) img = source_layout self img
     /\ source_layout (reset_morph self) img = source_layout self img).
  { intros img.
    unfold target_layout, source_layout, target_points_of, source_points_of,
      reset_morph, set_points.
    cbn [points]. rewrite !map_map. split; reflexivity. }
  split; [exact Hlay | split].
  - unfold reset_morph, set_points. cbn [points]. apply length_map.
  - intros src_tri dst_tri Hin.
    destruct (source_image (reset_morph self)) as [img |] eqn:Himg.
    + destruct (update_morph_events _ _ Himg Hin)
        as [H | [[e H] | [s [morphed H]]]]; try discriminate.
      apply warp_triangle_events in H.
      destruct H as [st [dt [Hs [Hd [H | [[M H] | H]]]]]]; try discriminate.
      injection H as -> ->.
      destruct (Hlay img) as [Ht Hsrc]. rewrite Ht in Hd. rewrite Hsrc in Hs.
      congruence.
    + unfold update_morph in Hin. rewrite Himg in Hin. destruct Hin.
Qed.

(** The frame duration handed to the encoder: for a slider value within
    the slider's range 1..100 it lies in 1..99, it is [100 - speed] up to
    speed 99, and the top two speeds give the same duration 1. *)
Theorem gif_duration_bounds (speed : Z) :
  (1 <= speed <= 100)%Z ->
  (1 <= gif_duration speed <= 99)%Z
  /\ ((speed <= 99)%Z -> gif_duration speed = (100 - speed)%Z)
  /\ gif_duration 100 = gif_duration 99.
Proof.
  unfold gif_duration. intros H. repeat split; lia.
Qed.

(** A cancel in the progress dialog makes [save_gif] return from inside the
    loop: whatever frames were computed are dropped and no list reaches the
    encoder. *)
Theorem save_gif_cancelled (self : MorphEditor) (num_frames k : nat)
    (loop : bool) (canceled : nat -> bool) (img : image) :
  source_canvas_image self = Some img ->
  2 <= num_frames ->
  k < num_frames ->
  canceled k = true ->
  snd (save_gif_frames self num_frames loop canceled) = Ok None.
Proof.
  intros Himg Hn Hk Hc.
  assert (Hloop : forall range images,
            In k range ->
            snd (frames_loop self num_frames canceled range images)
            = Ok None).
  { induction range as [| i rest IH]; intros images Hin; [destruct Hin |].
    cbn [frames_loop].
    destruct (canceled i) eqn:Hci; [reflexivity |].
    destruct Hin as [-> | Hin]; [congruence |].
    destruct (Z.eqb_spec (Z.of_nat num_frames - 1) 0) as [E | _]; [lia |].
    rewrite snd_bind. cbn [ret snd]. rewrite snd_bind.
    destruct (interpolate_image_returns self
                (true_div (Z.of_nat i) (Z.of_nat num_frames - 1)) Himg)
      as [frame ->].
    now apply IH. }
  unfold save_gif_frames. rewrite Himg, snd_bind, Hloop; [reflexivity |].
  apply in_seq. lia.
Qed.

(** Frame counts below the spin box's minimum: with 0 frames the list is
    empty, looped or not; with 1 frame the blend factor [0 / 0] raises
    [ZeroDivisionError], which nothing catches. *)
Theorem save_gif_frames_below_two (self : MorphEditor) (loop : bool)
    (canceled : nat -> bool) (img : image) :
  source_canvas_image self = Some img ->
  canceled 0 = false ->
  snd (save_gif_frames self 0 loop canceled) = Ok (Some [])
  /\ snd (save_gif_frames self 1 loop canceled) = Raise ZeroDivisionError.
Proof.
  intros Himg Hc. unfold save_gif_frames. rewrite Himg. split.
  - cbn. now destruct loop.
  - rewrite snd_bind. cbn [seq frames_loop]. rewrite Hc. reflexivity.
Qed.

End EditorFacts.

(** * Shapes and element types of the outputs *)

Section Shapes.

Lemma Forall_map2_length (f : pixel -> pixel -> pixel) (width : nat)
    (a b : image) :
  length a = length b ->
  Forall (fun row => length row = width) a ->
  Forall (fun row => length row = width) b ->
  Forall (fun row => length row = width) (map2 (map2 f) a b).
Proof.
  revert b. induction a as [| ra a IH]; intros [| rb b] Hlen Ha Hb;
    simpl in *; try discriminate; constructor.
  - rewrite length_map2; [exact (Forall_inv Ha) |].
    rewrite (Forall_inv Ha), (Forall_inv Hb). reflexivity.
  - apply IH; [now injection Hlen | exact (Forall_inv_tail Ha)
               | exact (Forall_inv_tail Hb)].
Qed.

Lemma has_shape_img_map2 (f : Z -> Z -> Z) (height width : nat)
    (a b : image) :
  has_shape height width a -> has_shape height width b ->
  has_shape height width (img_map2 f a b).
Proof.
  intros [Ha Hra] [Hb Hrb]. unfold img_map2. split.
  - rewrite length_map2; congruence.
  - apply Forall_map2_length; congruence.
Qed.

Lemma has_shape_img_map (f : Z -> Z) (height width : nat) (a : image) :
  has_shape height width a -> has_shape height width (img_map f a).
Proof.
  intros [Ha Hra]. unfold img_map. split.
  - now rewrite length_map.
  - rewrite Forall_map. eapply Forall_impl; [| exact Hra].
    intros row Hrow. now rewrite length_map.
Qed.

Lemma length_mapi_from (A B : Type) (f : nat -> A -> B) (l : list A)
    (i : nat) :
  length (mapi_from f i l) = length l.
Proof.
  revert i. induction l as [| a l IH]; intros i; simpl; [| rewrite IH];
    reflexivity.
Qed.

Lemma Forall_mapi_from (A B : Type) (f : nat -> A -> B) (P : B -> Prop)
    (l : list A) (i : nat) :
  (forall j a, In a l -> P (f j a)) -> Forall P (mapi_from f i l).
Proof.
  revert i. induction l as [| a l IH]; intros i H; simpl; constructor.
  - apply H. now left.
  - apply IH. intros j b Hb. apply H. now right.
Qed.

Lemma has_shape_img_mapi (f : nat -> nat -> pixel -> pixel)
    (height width : nat) (a : image) :
  has_shape height width a -> has_shape height width (img_mapi f a).
Proof.
  intros [Ha Hra]. unfold img_mapi. split.
  - now rewrite length_mapi_from.
  - apply Forall_mapi_from. intros j row Hrow.
    rewrite length_mapi_from. rewrite Forall_forall in Hra. now apply Hra.
Qed.

Lemma has_shape_tabulate (height width : nat) (f : nat -> nat -> pixel) :
  has_shape height width (tabulate height width f).
Proof.
  unfold tabulate. split.
  - now rewrite length_map, length_seq.
  - rewrite Forall_map. apply Forall_forall. intros y _.
    now rewrite length_map, length_seq.
Qed.

Lemma has_shape_of_rectangular (img : image) :
  rectangular img -> has_shape (fst (shape img)) (snd (shape img)) img.
Proof. intros H. split; [reflexivity | exact H]. Qed.

Lemma shape_of_has_shape (img frame : image) :
  has_shape (fst (shape img)) (snd (shape img)) frame ->
  shape frame = shape img /\ rectangular frame.
Proof.
  intros [Hlen Hrows].
  assert (Hshape : shape frame = shape img).
  { unfold shape in *. cbn [fst snd] in *. rewrite Hlen. f_equal.
    destruct frame as [| r frame], img as [| r' img]; simpl in *;
      try discriminate; trivial.
    exact (Forall_inv Hrows). }
  split; [exact Hshape |].
  unfold rectangular. now rewrite Hshape.
Qed.

Lemma uint8_image_astype (img : image) : uint8_image (astype_uint8 img).
Proof.
  unfold uint8_image, astype_uint8, img_map.
  rewrite Forall_map. apply Forall_forall. intros row _.
  rewrite Forall_map. apply Forall_forall. intros p _.
  apply uint8_pixel_u8.
Qed.

End Shapes.

Section ShapeFacts.

Context {FO : FloatOps} {L : Library FO}.

Lemma warp_triangle_shape (img : image)
    (source_points dst_points : list point) (morphed m' : image)
    (s : simplex) :
  rectangular img ->
  has_shape (fst (shape img)) (snd (shape img)) morphed ->
  snd (warp_triangle img (snd (shape img)) (fst (shape img))
         source_points dst_points morphed s) = Ok m' ->
  has_shape (fst (shape img)) (snd (shape img)) m'.
Proof.
  intros Hrect Hm Hrun. rewrite warp_triangle_result in Hrun.
  destruct (lookup3 source_points s) as [src_tri |]; [| discriminate].
  destruct (lookup3 dst_points s) as [dst_tri |]; [| discriminate].
  destruct (getAffineTransform src_tri dst_tri) as [M | e]; [| discriminate].
  destruct (warp_error img M); [discriminate |].
  destruct (fill_error (astype_int32 dst_tri)); [discriminate |].
  injection Hrun as <-.
  unfold composite, img_add, img_mul, img_rsub.
  assert (Hmask : has_shape (fst (shape img)) (snd (shape img))
            (img_mapi (fun x y p =>
                         if covers (astype_int32 dst_tri) x y
                         then (1, 1, 1)%Z else p) (zeros_like img))).
  { apply has_shape_img_mapi. unfold zeros_like.
    apply has_shape_img_map. now apply has_shape_of_rectangular. }
  repeat first [apply has_shape_img_map2 | apply has_shape_img_map
               | apply has_shape_tabulate | assumption].
Qed.

Lemma warp_triangles_shape (img : image)
    (source_points dst_points : list point) :
  rectangular img ->
  forall (simplices : list simplex) (seed final : image),
    has_shape (fst (shape img)) (snd (shape img)) seed ->
    snd (warp_triangles img (snd (shape img)) (fst (shape img))
           source_points dst_points seed simplices) = Ok final ->
    has_shape (fst (shape img)) (snd (shape img)) final.
Proof.
  intros Hrect. unfold warp_triangles.
  induction simplices as [| s rest IH]; intros seed final Hseed Hrun.
  - simpl in Hrun. now injection Hrun as <-.
  - cbn [for_each] in Hrun. rewrite snd_bind in Hrun.
    destruct (snd (warp_triangle _ _ _ _ _ seed s)) as [m' |] eqn:Hstep;
      [| discriminate].
    apply (IH m' final); [| exact Hrun].
    eapply warp_triangle_shape; eassumption.
Qed.

Lemma interpolate_image_shape (self : MorphEditor) (t : F)
    (img : image) :
  source_canvas_image self = Some img ->
  rectangular img -> uint8_image img ->
  exists frame,
    snd (interpolate_image self t) = Ok frame
    /\ shape frame = shape img
    /\ rectangular frame
    /\ uint8_image frame.
Proof.
  intros Himg Hrect Hu8. rewrite (interpolate_image_result self t Himg).
  destruct (Delaunay (source_layout self img)) as [simplices | e];
    [| exists img; now repeat split].
  destruct (snd (warp_triangles _ _ _ _ _ _ _)) as [morphed | e] eqn:Hrun;
    [| exists img; now repeat split].
  exists (astype_uint8 morphed). split; [reflexivity |].
  assert (Hshape : has_shape (fst (shape img)) (snd (shape img))
                     (astype_uint8 morphed)).
  { apply has_shape_img_map.
    eapply warp_triangles_shape; [exact Hrect | | exact Hrun].
    apply has_shape_img_map. now apply has_shape_of_rectangular. }
  destruct (shape_of_has_shape _ Hshape) as [Hs Hr].
  repeat split; trivial. apply uint8_image_astype.
Qed.

(** Whatever [interpolate_image] returns for a well-formed source image,
    the composite or the fallback, is an array of the shape of the source
    with [uint8] elements. *)
Theorem interpolate_image_frame_shape (self : MorphEditor) (t : F)
    (img : image) :
  source_canvas_image self = Some img ->
  rectangular img -> uint8_image img ->
  exists frame,
    snd (interpolate_image self t) = Ok frame
    /\ shape frame = shape img
    /\ rectangular frame
    /\ uint8_image frame.
Proof.
  apply interpolate_image_shape.
Qed.

(** What [update_morph] puts on the target canvas has the shape of the
    source image and [uint8] elements. *)
Theorem update_morph_canvas_shape (self self' : MorphEditor) (img : image) :
  source_image self = Some img ->
  3 <= length (points self) ->
  rectangular img ->
  snd (update_morph self) = Ok self' ->
  self' = self
  \/ exists out,
       target_canvas_image self' = Some out
       /\ shape out = shape img
       /\ rectangular out
       /\ uint8_image out.
Proof.
  intros Himg Hlen Hrect. rewrite (update_morph_result self Himg Hlen).
  destruct (Delaunay (source_layout self img)) as [simplices | e];
    [| intros H; injection H as <-; now left].
  destruct (snd (warp_triangles _ _ _ _ _ _ _)) as [morphed | e] eqn:Hrun;
    [| intros H; injection H as <-; now left].
  intros H. injection H as <-. right.
  exists (astype_uint8 morphed). split; [reflexivity |].
  assert (Hshape : has_shape (fst (shape img)) (snd (shape img))
                     (astype_uint8 morphed)).
  { apply has_shape_img_map.
    eapply warp_triangles_shape; [exact Hrect | | exact Hrun].
    now apply has_shape_of_rectangular. }
  destruct (shape_of_has_shape _ Hshape) as [Hs Hr].
  repeat split; trivial. apply uint8_image_astype.
Qed.

(** Every frame [save_gif] collects has the shape of the source image, so
    the encoder receives frames of one size. *)
Theorem save_gif_frames_of_one_shape (self : MorphEditor) (num_frames : nat)
    (loop : bool) (canceled : nat -> bool) (img : image)
    (images : list image) :
  source_canvas_image self = Some img ->
  rectangular img -> uint8_image img ->
  snd (save_gif_frames self num_frames loop canceled) = Ok (Some images) ->
  Forall (fun frame => shape frame = shape img /\ uint8_image frame) images.
Proof.
  intros Himg Hrect Hu8.
  assert (Hloop : forall range acc out,
            Forall (fun frame => shape frame = shape img
                                 /\ uint8_image frame) acc ->
            snd (frames_loop self num_frames canceled range acc)
            = Ok (Some out) ->
            Forall (fun frame => shape frame = shape img
                                 /\ uint8_image frame) out).
  { induction range as [| i rest IH]; intros acc out Hacc Hrun.
    - simpl in Hrun. now injection Hrun as <-.
    - cbn [frames_loop] in Hrun.
      destruct (canceled i); [discriminate |].
      destruct (Z.of_nat num_frames - 1 =? 0)%Z; [discriminate |].
      rewrite snd_bind in Hrun. cbn [ret snd] in Hrun.
      rewrite snd_bind in Hrun.
      destruct (interpolate_image_shape self
                  (true_div (Z.of_nat i) (Z.of_nat num_frames - 1))
                  Himg Hrect Hu8) as [frame [Hf [Hs [_ Hu]]]].
      rewrite Hf in Hrun. apply (IH (acc ++ [frame]) out); [| exact Hrun].
      apply Forall_app. split; [exact Hacc |]. now repeat constructor. }
  unfold save_gif_frames. rewrite Himg, snd_bind.
  destruct (snd (frames_loop _ _ _ _ _)) as [[frames |] | e] eqn:Hrun;
    try discriminate.
  intros H. injection H as <-.
  pose proof (Hloop _ _ _ (Forall_nil _) Hrun) as Hall.
  destruct loop; [| exact Hall].
  apply Forall_app. split; [exact Hall |]. now apply Forall_rev.
Qed.

End ShapeFacts.

(** * Templates that do not load *)

Section TemplateFailures.

Context {FO : FloatOps} {FT : FloatText FO}.

Lemma load_rows_stop (good : list (list (list ascii)))
    (bad : list (list ascii)) (rest : list (list (list ascii)))
    (pts : list MorphPoint) (e : exn) :
  Forall2 (fun row p => parse_row row = Ok p) good pts ->
  parse_row bad = Raise e ->
  forall acc,
    load_rows (good ++ bad :: rest) acc = (acc ++ pts, Raise e).
Proof.
  intros Hgood Hbad.
  induction Hgood as [| row p good pts Hrow _ IH]; intros acc.
  - simpl. rewrite Hbad. now rewrite app_nil_r.
  - simpl. rewrite Hrow, IH. now rewrite <- app_assoc.
Qed.

(** A row that is not four fields does not parse. *)
Lemma parse_row_needs_four_fields (row : list (list ascii)) :
  length row <> 4 -> parse_row row = Raise ValueError.
Proof.
  destruct row as [| a [| b [| c [| d [| x row]]]]]; simpl; intros H;
    try reflexivity.
  now destruct H.
Qed.

(** [load_template] clears the list before it reads, and does not catch
    what the reading raises.  On a text whose fields are within the field
    size limit of [csv] (so that the reader itself does not raise), when a
    row does not parse (not four fields, or a field that is no float), a
    [ValueError] leaves the function, the points the editor had are gone,
    the rows before the bad one have become the points, and the rows after
    it are not read. *)
Theorem load_template_stops_at_bad_row (self : MorphEditor)
    (text : list ascii) (good : list (list (list ascii)))
    (bad : list (list ascii)) (rest : list (list (list ascii)))
    (pts : list MorphPoint) (e : exn) :
  within_field_limit text ->
  reader START_RECORD [] [] (universal_newlines text) = good ++ bad :: rest ->
  Forall2 (fun row p => parse_row row = Ok p) good pts ->
  parse_row bad = Raise e ->
  load_template self text = (set_points self pts, Raise e)
  /\ e = ValueError.
Proof.
  intros _ Hrows Hgood Hbad. split.
  - unfold load_template. rewrite Hrows.
    now rewrite (@load_rows_stop good bad rest pts e Hgood Hbad []).
  - revert Hbad. unfold parse_row.
    destruct bad as [| a [| b [| c [| d [| x row]]]]]; try congruence.
    destruct (float a), (float b), (float c), (float d); congruence.
Qed.

End TemplateFailures.

(** * The canvas *)

Section CanvasFacts.

Context {FO : FloatOps} {CF : CanvasFloats FO}.

Lemma clamp_unit (v : F) : unit_coordinate (clamp v).
Proof.
  unfold unit_coordinate, clamp.
  destruct (flt v one) eqn:H1.
  - destruct (flt zero v) eqn:H0; [right; right; now split | now left].
  - destruct (flt zero one) eqn:H0; [right; now left | now left].
Qed.

Lemma get_image_space_pos_unit (self : ImageCanvas) (has_image : bool)
    (widget_pos : Z * Z) (pos : point) :
  get_image_space_pos self has_image widget_pos = Ok pos ->
  unit_coordinate (fst pos) /\ unit_coordinate (snd pos).
Proof.
  assert (Horigin : unit_coordinate zero) by now left.
  unfold get_image_space_pos.
  destruct (negb has_image || _);
    [intros H; injection H as <-; now split |].
  destruct (get_image_rect self) as [r | e]; [| discriminate].
  destruct (negb (isValid r));
    [intros H; injection H as <-; now split |].
  destruct (fzero (rect_width r)); [discriminate |].
  destruct (fzero (rect_height r)); [discriminate |].
  intros H. injection H as <-. split; apply clamp_unit.
Qed.

(** [get_image_space_pos] never returns a coordinate outside the unit
    interval: each coordinate is 0, or 1, or a float strictly between them,
    whatever the comparison makes of the value computed (a nan included). *)
Theorem get_image_space_pos_clamped (self : ImageCanvas) (has_image : bool)
    (widget_pos : Z * Z) (pos : point) :
  get_image_space_pos self has_image widget_pos = Ok pos ->
  unit_coordinate (fst pos) /\ unit_coordinate (snd pos).
Proof.
  apply get_image_space_pos_unit.
Qed.

Lemma find_near_bound (self : ImageCanvas) (has_image of_target : bool)
    (click : Z * Z) (pts : list MorphPoint) :
  forall i0 i,
    find_near self has_image of_target click pts i0 = Ok (Some i) ->
    i0 <= i < i0 + length pts.
Proof.
  induction pts as [| p rest IH]; intros i0 i H; simpl in H;
    [discriminate |].
  destruct (get_widget_space_pos _ _ _) as [w | e]; [| discriminate].
  destruct (manhattan click w <? 10)%Z.
  - injection H as <-. simpl. lia.
  - apply IH in H. simpl. lia.
Qed.

(** A press on the target canvas, with any button, never changes the list
    of points and never calls [points_updated]; all it can do is start a
    drag of an existing point. *)
Theorem mousePressEvent_on_target_keeps_points (self self' : ImageCanvas)
    (has_image : bool) (pts pts' : list MorphPoint) (b : button)
    (click : Z * Z) (notified : bool) :
  is_target self = true ->
  mousePressEvent self has_image pts b click = Ok (self', pts', notified) ->
  pts' = pts /\ notified = false
  /\ (self' = self
      \/ exists i, i < length pts /\ self' = select self i).
Proof.
  intros Ht. unfold mousePressEvent. rewrite Ht.
  destruct b.
  - destruct (get_image_space_pos _ _ _) as [pos | e]; [| discriminate].
    destruct (find_near _ _ _ _ _ _) as [[i |] | e] eqn:Hf;
      try discriminate; intros H; injection H as <- <- <-;
      repeat split; auto.
    right. exists i. split; [| reflexivity].
    apply find_near_bound in Hf. lia.
  - intros H; injection H as <- <- <-. repeat split; auto.
  - intros H; injection H as <- <- <-. repeat split; auto.
Qed.

(** A left press on the source canvas either starts a drag of an existing
    point, the list untouched, or appends exactly one point: its source
    and target are the same clamped position, and the points that were
    there keep their indices. *)
Theorem mousePressEvent_left_on_source (self self' : ImageCanvas)
    (has_image : bool) (pts pts' : list MorphPoint) (click : Z * Z)
    (notified : bool) :
  is_target self = false ->
  mousePressEvent self has_image pts LeftButton click
  = Ok (self', pts', notified) ->
  (pts' = pts /\ notified = false
   /\ exists i, i < length pts /\ self' = select self i)
  \/ (self' = self
      /\ notified = parent_has_points_updated self
      /\ exists pos,
           pts' = pts ++ [{| source := pos; target := pos |}]
           /\ unit_coordinate (fst pos) /\ unit_coordinate (snd pos)).
Proof.
  intros Ht. unfold mousePressEvent. rewrite Ht.
  destruct (get_image_space_pos _ _ _) as [pos | e] eqn:Hpos;
    [| discriminate].
  destruct (find_near _ _ _ _ _ _) as [[i |] | e] eqn:Hf;
    try discriminate; intros H; injection H as <- <- <-.
  - left. repeat split. exists i. split; [| reflexivity].
    apply find_near_bound in Hf. lia.
  - right. repeat split. exists pos. split; [reflexivity |].
    eapply get_image_space_pos_unit; eassumption.
Qed.

Lemma length_pop (i : nat) (pts : list MorphPoint) :
  i < length pts -> S (length (pop i pts)) = length pts.
Proof.
  intros Hi. unfold pop.
  rewrite length_app, length_firstn, length_skipn. lia.
Qed.

Lemma mousePressEvent_right_deletes (self self' : ImageCanvas)
    (has_image : bool) (pts pts' : list MorphPoint) (click : Z * Z)
    (notified : bool) :
  is_target self = false ->
  mousePressEvent self has_image pts RightButton click
  = Ok (self', pts', notified) ->
  self' = self
  /\ ((pts' = pts /\ notified = false)
      \/ exists i,
           i < length pts
           /\ pts' = firstn i pts ++ skipn (S i) pts
           /\ S (length pts') = length pts
           /\ notified = parent_has_points_updated self).
Proof.
  intros Ht. unfold mousePressEvent. rewrite Ht.
  destruct (find_near _ _ _ _ _ _) as [[i |] | e] eqn:Hf;
    try discriminate; intros H; injection H as <- <- <-.
  - split; [reflexivity |]. right. exists i.
    apply find_near_bound in Hf.
    repeat split; [lia | apply length_pop; lia].
  - split; [reflexivity |]. now left.
Qed.

(** A right press on the source canvas removes at most one point, the
    first one within reach of the click, and leaves the canvas as it was:
    a drag in progress keeps its index. *)
Theorem mousePressEvent_right_on_source (self self' : ImageCanvas)
    (has_image : bool) (pts pts' : list MorphPoint) (click : Z * Z)
    (notified : bool) :
  is_target self = false ->
  mousePressEvent self has_image pts RightButton click
  = Ok (self', pts', notified) ->
  self' = self
  /\ ((pts' = pts /\ notified = false)
      \/ exists i,
           i < length pts
           /\ pts' = firstn i pts ++ skipn (S i) pts
           /\ S (length pts') = length pts
           /\ notified = parent_has_points_updated self).
Proof.
  apply mousePressEvent_right_deletes.
Qed.

Lemma move_point_spec (of_target : bool) (pos : point) :
  forall (pts : list MorphPoint) (i : nat),
    match move_point of_target pos i pts with
    | Some pts' =>
        i < length pts
        /\ length pts' = length pts
        /\ (forall j, j <> i -> nth_error pts' j = nth_error pts j)
        /\ exists p,
             nth_error pts i = Some p
             /\ nth_error pts' i
                = Some (if of_target
                        then {| source := source p; target := pos |}
                        else {| source := pos; target := target p |})
    | None => length pts <= i
    end.
Proof.
  induction pts as [| p rest IH]; intros i; simpl.
  - destruct i; simpl; lia.
  - destruct i as [| j].
    + split; [simpl; lia | split; [reflexivity | split]].
      * intros [| j] Hj; [now destruct Hj | reflexivity].
      * exists p. now split.
    + change (move_point of_target pos (S j) (p :: rest))
        with (match move_point of_target pos j rest with
              | Some rest' => Some (p :: rest')
              | None => None
              end).
      specialize (IH j). destruct (move_point of_target pos j rest).
      * destruct IH as [Hj [Hlen [Hother [q [Hq Hq']]]]]. cbv beta iota.
        split; [simpl; lia | split; [simpl; lia | split]].
        -- intros [| k] Hk; [reflexivity |]. simpl. apply Hother. lia.
        -- exists q. now split.
      * cbv beta iota. simpl. lia.
Qed.

(** A move while a point is dragged changes that point only, and only the
    end the canvas shows (the target on the target canvas, the source on
    the source canvas); the list keeps its length and every other point.
    Without a drag nothing changes. *)
Theorem mouseMoveEvent_moves_one_point (self : ImageCanvas)
    (has_image : bool) (pts pts' : list MorphPoint) (at_pos : Z * Z)
    (notified : bool) :
  mouseMoveEvent self has_image pts at_pos = Ok (pts', notified) ->
  (pts' = pts /\ notified = false)
  \/ exists i p pos,
       selected_point self = Some i
       /\ dragging self = true
       /\ length pts' = length pts
       /\ (forall j, j <> i -> nth_error pts' j = nth_error pts j)
       /\ nth_error pts i = Some p
       /\ nth_error pts' i
          = Some (if is_target self
                  then {| source := source p; target := pos |}
                  else {| source := pos; target := target p |})
       /\ unit_coordinate (fst pos) /\ unit_coordinate (snd pos).
Proof.
  unfold mouseMoveEvent.
  destruct (dragging self); [| intros H; injection H as <- <-; now left].
  destruct (selected_point self) as [i |];
    [| intros H; injection H as <- <-; now left].
  destruct (get_image_space_pos _ _ _) as [pos | e] eqn:Hpos;
    [| discriminate].
  pose proof (move_point_spec (is_target self) pos pts i) as Hm.
  destruct (move_point _ _ _ _) as [moved |]; [| discriminate].
  intros H. injection H as <- <-. right.
  destruct Hm as [Hi [Hlen [Hother [p [Hp Hp']]]]].
  exists i, p, pos. repeat split; trivial;
    eapply get_image_space_pos_unit; eassumption.
Qed.

Lemma mouseMoveEvent_IndexError (self : ImageCanvas) (has_image : bool)
    (pts : list MorphPoint) (at_pos : Z * Z) (i : nat) (pos : point) :
  dragging self = true ->
  selected_point self = Some i ->
  length pts <= i ->
  get_image_space_pos self has_image at_pos = Ok pos ->
  mouseMoveEvent self has_image pts at_pos = Raise IndexError.
Proof.
  intros Hd Hs Hlen Hpos. unfold mouseMoveEvent. rewrite Hd, Hs, Hpos.
  pose proof (move_point_spec (is_target self) pos pts i) as Hm.
  destruct (move_point _ _ _ _) as [moved |]; [| reflexivity].
  destruct Hm as [Hi _]. lia.
Qed.

(** The index of a drag is not kept within the list: when the list has
    become too short for it, the next move raises [IndexError]. *)
Theorem mouseMoveEvent_stale_index (self : ImageCanvas) (has_image : bool)
    (pts : list MorphPoint) (at_pos : Z * Z) (i : nat) (pos : point) :
  dragging self = true ->
  selected_point self = Some i ->
  length pts <= i ->
  get_image_space_pos self has_image at_pos = Ok pos ->
  mouseMoveEvent self has_image pts at_pos = Raise IndexError.
Proof.
  apply mouseMoveEvent_IndexError.
Qed.

(** Deleting during a drag: when the last point is being dragged on the
    source canvas and a right press removes a point, the canvas still
    holds the old index, and the next move raises [IndexError]. *)
Theorem delete_during_drag_breaks_move (self self' : ImageCanvas)
    (has_image : bool) (pts pts' : list MorphPoint) (click at_pos : Z * Z)
    (notified : bool) (i : nat) (pos : point) :
  is_target self = false ->
  dragging self = true ->
  selected_point self = Some i ->
  length pts = S i ->
  mousePressEvent self has_image pts RightButton click
  = Ok (self', pts', notified) ->
  pts' <> pts ->
  get_image_space_pos self' has_image at_pos = Ok pos ->
  mouseMoveEvent self' has_image pts' at_pos = Raise IndexError.
Proof.
  intros Ht Hd Hs Hlen Hpress Hchanged Hpos.
  destruct (mousePressEvent_right_deletes _ _ _ _ Ht Hpress)
    as [-> [[Hsame _] | [k [Hk [_ [Hlen' _]]]]]];
    [now destruct Hchanged |].
  eapply mouseMoveEvent_IndexError; try eassumption. lia.
Qed.

Lemma find_near_without_image (self : ImageCanvas) (of_target : bool)
    (click : Z * Z) (pts : list MorphPoint) :
  (10 <= manhattan click (0, 0))%Z ->
  forall i, find_near self false of_target click pts i = Ok None.
Proof.
  intros Hfar. induction pts as [| p rest IH]; intros i; simpl; trivial.
  unfold get_widget_space_pos. cbn [negb orb].
  destruct (Z.ltb_spec (manhattan click (0, 0)%Z) 10); [lia | apply IH].
Qed.

(** On a canvas that shows no image every position is the origin: both
    conversions return (0, 0), so a left press on the empty source canvas,
    ten or more away from the widget's corner, appends a point at (0, 0),
    whatever points there are. *)
Theorem press_without_image_adds_origin (self : ImageCanvas)
    (pts : list MorphPoint) (click : Z * Z) (p : point) :
  is_target self = false ->
  (10 <= manhattan click (0, 0))%Z ->
  get_image_space_pos self false click = Ok (zero, zero)
  /\ get_widget_space_pos self false p = Ok (0, 0)%Z
  /\ mousePressEvent self false pts LeftButton click
     = Ok (self,
           pts ++ [{| source := (zero, zero); target := (zero, zero) |}],
           parent_has_points_updated self).
Proof.
  intros Ht Hfar. repeat split.
  unfold mousePressEvent.
  change (get_image_space_pos self false click) with (Ok (zero, zero)).
  rewrite (@find_near_without_image self (is_target self) click pts Hfar 0).
  now rewrite Ht.
Qed.

End CanvasFacts.

(** ** The window over a sequence of events *)

Section WindowFacts.

Context {FO : FloatOps} {L : Library FO} {CF : CanvasFloats FO}
        {FT : FloatText FO}.

Lemma same_images_refl (ed : MorphEditor) : same_images ed ed.
Proof. unfold same_images. auto. Qed.

Lemma same_images_set_points (ed : MorphEditor) (pts : list MorphPoint) :
  same_images ed (set_points ed pts).
Proof. unfold same_images. simpl. auto. Qed.

Lemma same_images_trans (a b c : MorphEditor) :
  same_images a b -> same_images b c -> same_images a c.
Proof.
  unfold same_images.
  intros [Hs [Ht [Hc Hd]]] [Hs' [Ht' [Hc' Hd']]].
  repeat split; try congruence.
  destruct Hd' as [Hd' | Hn]; [| right; congruence].
  destruct Hd as [Hd | Hd]; [left; congruence | now right].
Qed.

Lemma update_morph_same_images (self ed : MorphEditor) :
  snd (update_morph self) = Ok ed ->
  same_images self ed /\ points ed = points self.
Proof.
  unfold update_morph.
  destruct (source_image self) as [img |] eqn:Himg;
    [| intros H; injection H as <-; split;
       [apply same_images_refl | reflexivity]].
  destruct (length (points self) <? 3);
    [intros H; injection H as <-; split;
     [apply same_images_refl | reflexivity] |].
  destruct (shape img) as [height width].
  rewrite snd_try_except, snd_bind. cbn [call snd].
  destruct (Delaunay _) as [simplices | e];
    [| intros H; injection H as <-; split;
       [apply same_images_refl | reflexivity]].
  rewrite snd_bind.
  destruct (snd (warp_triangles _ _ _ _ _ _ _)) as [morphed | e];
    intros H; injection H as <-.
  - split; [| reflexivity].
    unfold same_images. simpl. repeat split. right.
    rewrite Himg. discriminate.
  - split; [apply same_images_refl | reflexivity].
Qed.

Lemma update_morph_returns (self : MorphEditor) :
  exists ed, snd (update_morph self) = Ok ed.
Proof.
  destruct (update_morph_outcomes self) as [H | [out H]]; eauto.
Qed.

Lemma points_updated_same_images (self ed : MorphEditor) :
  snd (points_updated self) = Ok ed ->
  same_images self ed /\ points ed = points self.
Proof.
  unfold points_updated.
  destruct (source_image self) as [img |];
    [| intros H; injection H as <-; split;
       [apply same_images_refl | reflexivity]].
  destruct (3 <=? length (points self));
    [apply update_morph_same_images |].
  intros H; injection H as <-; split;
    [apply same_images_refl | reflexivity].
Qed.

Lemma consistent_with_editor (w : MainWindow) (ed : MorphEditor) :
  same_images (morph_editor w) ed ->
  consistent w -> consistent (with_editor w ed).
Proof.
  unfold same_images, consistent. simpl.
  intros [Hs [Ht [Hc Hd]]] [Ic [It [Inone [Idisp [Isrc Itgt]]]]].
  rewrite Hs, Ht, Hc.
  repeat split; trivial.
  intros Hnone. destruct Hd as [Hd | Hn]; [| now destruct Hn].
  rewrite Hd. now apply Inone.
Qed.

Lemma consistent_notify_parent (w : MainWindow) (notified : bool) :
  consistent w -> consistent (fst (notify_parent w notified)).
Proof.
  intros Hw. unfold notify_parent.
  destruct notified; [| exact Hw].
  destruct (snd (points_updated (morph_editor w))) as [ed | e] eqn:Hed;
    [| exact Hw].
  apply consistent_with_editor; [| exact Hw].
  now apply points_updated_same_images.
Qed.

Lemma points_notify_parent (w : MainWindow) (notified : bool) :
  points (morph_editor (fst (notify_parent w notified)))
  = points (morph_editor w).
Proof.
  unfold notify_parent.
  destruct notified; [| reflexivity].
  destruct (snd (points_updated (morph_editor w))) as [ed | e] eqn:Hed;
    [| reflexivity].
  now apply points_updated_same_images.
Qed.

Lemma mousePressEvent_canvas (self self' : ImageCanvas) (has_image : bool)
    (pts pts' : list MorphPoint) (b : button) (click : Z * Z)
    (notified : bool) :
  mousePressEvent self has_image pts b click = Ok (self', pts', notified) ->
  is_target self' = is_target self
  /\ display_triangles self' = display_triangles self.
Proof.
  unfold mousePressEvent.
  destruct b.
  - destruct (get_image_space_pos _ _ _) as [pos | e]; [| discriminate].
    destruct (find_near _ _ _ _ _ _) as [[i |] | e]; [| | discriminate].
    + intros H. injection H as <- <- <-. now split.
    + destruct (is_target self) eqn:Ht; intros H; injection H as <- <- <-;
        now split.
  - destruct (is_target self) eqn:Ht;
      [intros H; injection H as <- <- <-; now split |].
    destruct (find_near _ _ _ _ _ _) as [[i |] | e]; [| | discriminate];
      intros H; injection H as <- <- <-; now split.
  - intros H. injection H as <- <- <-. now split.
Qed.

Lemma consistent_with_canvas (w : MainWindow) (on_target : bool)
    (c : ImageCanvas) :
  is_target c = is_target (canvas_of w on_target) ->
  display_triangles c = display_triangles (canvas_of w on_target) ->
  consistent w -> consistent (with_canvas w on_target c).
Proof.
  unfold consistent, with_canvas, canvas_of.
  intros Ht Hd [Ic [It [Inone [Idisp [Isrc Itgt]]]]].
  destruct on_target; simpl; repeat split; trivial; congruence.
Qed.

(** One event keeps the window consistent, whether its handler returns or
    raises. *)
Lemma consistent_step (a : action) (w : MainWindow) :
  consistent w -> consistent (fst (step a w)).
Proof.
  intros Hw. destruct a; cbn [step].
  - unfold load_image.
    destruct chosen as [[bgr |] |]; cbn [fst]; trivial.
    destruct Hw as [Ic [It [Inone [Idisp [Isrc Itgt]]]]].
    destruct (update_display (source_canvas w) true _); cbn [fst];
      unfold consistent, copy; simpl;
      repeat split; trivial; discriminate.
  - destruct Hw as [Ic [It [Inone [Idisp [Isrc Itgt]]]]].
    unfold consistent. simpl.
    repeat split; trivial. now f_equal.
  - apply consistent_with_editor; [apply same_images_set_points | exact Hw].
  - apply consistent_with_editor; [apply same_images_set_points | exact Hw].
  - destruct (snd (update_morph (morph_editor w))) as [ed | e] eqn:Hed;
      [| exact Hw].
    apply consistent_with_editor; [| exact Hw].
    now apply update_morph_same_images.
  - unfold load_template.
    destruct (load_rows _ _) as [pts r]. cbn [fst].
    apply consistent_with_editor; [apply same_images_set_points | exact Hw].
  - destruct (mousePressEvent _ _ _ _ _) as [[[c pts] notified] | e] eqn:Hp;
      [| exact Hw].
    apply consistent_notify_parent.
    apply mousePressEvent_canvas in Hp. destruct Hp as [Ht Hd].
    apply consistent_with_canvas; [exact Ht | exact Hd |].
    apply consistent_with_editor; [apply same_images_set_points | exact Hw].
  - destruct (mouseMoveEvent _ _ _ _) as [[pts notified] | e]; [| exact Hw].
    apply consistent_notify_parent.
    apply consistent_with_editor; [apply same_images_set_points | exact Hw].
  - cbn [fst]. now apply consistent_with_canvas.
  - cbn [fst]. now apply consistent_with_canvas.
Qed.

(** Whatever the user does, in whatever order and whether or not a handler
    raises on the way, the window stays consistent: the source canvas shows
    the source image, so that [update_morph], which reads
    [self.source_image], and [interpolate_image], which reads
    [self.source_canvas.image], work on the same raster; the target image
    is the source image too (the editor never holds two pictures); the
    target canvas has no image as long as no image was loaded; the two
    canvases agree on whether triangles are displayed; and the canvases
    keep their roles. *)
Theorem window_stays_consistent (actions : list action)
    (size_source size_target : Z * Z) (has_method : bool) :
  consistent (run actions (new_window size_source size_target has_method)).
Proof.
  assert (Hrun : forall acts w, consistent w -> consistent (run acts w)).
  { induction acts as [| a rest IH]; intros w Hw; [exact Hw |].
    cbn [run]. apply IH. now apply consistent_step. }
  apply Hrun. unfold consistent. simpl. repeat split; trivial.
Qed.

Lemma move_point_unit (of_target : bool) (pos : point) :
  unit_coordinate (fst pos) -> unit_coordinate (snd pos) ->
  forall (pts pts' : list MorphPoint) (i : nat),
    Forall in_unit_square pts ->
    move_point of_target pos i pts = Some pts' ->
    Forall in_unit_square pts'.
Proof.
  intros Hx Hy. induction pts as [| p rest IH]; intros pts' i Hall;
    [destruct i; discriminate |].
  pose proof (Forall_inv Hall) as Hp.
  pose proof (Forall_inv_tail Hall) as Hrest.
  destruct i as [| j]; cbn [move_point].
  - intros H. injection H as <-. constructor; [| exact Hrest].
    destruct Hp as [H1 [H2 [H3 H4]]].
    destruct of_target; unfold in_unit_square; simpl; auto.
  - destruct (move_point of_target pos j rest) as [rest' |] eqn:Hm;
      [| discriminate].
    intros H. injection H as <-. constructor; [exact Hp |].
    eapply IH; eassumption.
Qed.

Lemma pop_unit (pts : list MorphPoint) :
  Forall in_unit_square pts ->
  forall i, Forall in_unit_square (pop i pts).
Proof.
  induction 1 as [| p rest Hp Hrest IH]; intros i.
  - destruct i; constructor.
  - destruct i as [| j].
    + exact Hrest.
    + change (pop (S j) (p :: rest)) with (p :: pop j rest).
      constructor; [exact Hp | apply IH].
Qed.

Lemma mousePressEvent_unit (self self' : ImageCanvas) (has_image : bool)
    (pts pts' : list MorphPoint) (b : button) (click : Z * Z)
    (notified : bool) :
  Forall in_unit_square pts ->
  mousePressEvent self has_image pts b click = Ok (self', pts', notified) ->
  Forall in_unit_square pts'.
Proof.
  intros Hall. unfold mousePressEvent.
  destruct b.
  - destruct (get_image_space_pos _ _ _) as [pos | e] eqn:Hpos;
      [| discriminate].
    destruct (find_near _ _ _ _ _ _) as [[i |] | e]; [| | discriminate].
    + intros H. injection H as <- <- <-. exact Hall.
    + destruct (is_target self); intros H; injection H as <- <- <-;
        [exact Hall |].
      apply Forall_app. split; [exact Hall |].
      constructor; [| constructor].
      apply get_image_space_pos_unit in Hpos.
      unfold in_unit_square. simpl. tauto.
  - destruct (is_target self);
      [intros H; injection H as <- <- <-; exact Hall |].
    destruct (find_near _ _ _ _ _ _) as [[i |] | e]; [| | discriminate];
      intros H; injection H as <- <- <-; [now apply pop_unit | exact Hall].
  - intros H. injection H as <- <- <-. exact Hall.
Qed.

Lemma mouseMoveEvent_unit (self : ImageCanvas) (has_image : bool)
    (pts pts' : list MorphPoint) (at_pos : Z * Z) (notified : bool) :
  Forall in_unit_square pts ->
  mouseMoveEvent self has_image pts at_pos = Ok (pts', notified) ->
  Forall in_unit_square pts'.
Proof.
  intros Hall. unfold mouseMoveEvent.
  destruct (dragging self); [| intros H; injection H as <- <-; exact Hall].
  destruct (selected_point self) as [i |];
    [| intros H; injection H as <- <-; exact Hall].
  destruct (get_image_space_pos _ _ _) as [pos | e] eqn:Hpos;
    [| discriminate].
  destruct (move_point _ _ _ _) as [moved |] eqn:Hm; [| discriminate].
  intros H. injection H as <- <-.
  apply get_image_space_pos_unit in Hpos. destruct Hpos as [Hx Hy].
  eapply move_point_unit; eassumption.
Qed.

Lemma unit_step (a : action) (w : MainWindow) :
  is_load_template a = false ->
  Forall in_unit_square (points (morph_editor w)) ->
  Forall in_unit_square (points (morph_editor (fst (step a w)))).
Proof.
  intros Ha Hall. destruct a; cbn [step]; try discriminate Ha.
  - unfold load_image.
    destruct chosen as [[bgr |] |]; cbn [fst]; try exact Hall.
    destruct (update_display (source_canvas w) true _); exact Hall.
  - exact Hall.
  - constructor.
  - cbn [fst with_editor morph_editor reset_morph set_points points].
    apply Forall_map.
    refine (Forall_impl _ _ Hall).
    intros p [H1 [H2 _]]. unfold in_unit_square. simpl. auto.
  - destruct (snd (update_morph (morph_editor w))) as [ed | e] eqn:Hed;
      [| exact Hall].
    apply update_morph_same_images in Hed. destruct Hed as [_ Hp].
    cbn [fst with_editor morph_editor]. rewrite Hp. exact Hall.
  - destruct (mousePressEvent _ _ _ _ _) as [[[c pts] notified] | e] eqn:Hp;
      [| exact Hall].
    rewrite points_notify_parent.
    eapply mousePressEvent_unit in Hp; [| exact Hall].
    destruct on_target; exact Hp.
  - destruct (mouseMoveEvent _ _ _ _) as [[pts notified] | e] eqn:Hm;
      [| exact Hall].
    rewrite points_notify_parent.
    eapply mouseMoveEvent_unit in Hm; [| exact Hall]. exact Hm.
  - destruct on_target; exact Hall.
  - destruct on_target; exact Hall.
Qed.

(** As long as no template is loaded, every correspondence the editor
    holds has all four coordinates in the unit interval, after any sequence
    of events: the mouse handlers only store clamped positions, deleting and
    resetting keep what is there, and [update_morph] leaves the points
    alone.  (A template gives the points whatever floats the file holds.) *)
Theorem points_stay_in_unit_square (actions : list action)
    (size_source size_target : Z * Z) (has_method : bool) :
  existsb is_load_template actions = false ->
  Forall in_unit_square
    (points (morph_editor (run actions
                       (new_window size_source size_target has_method)))).
Proof.
  intros Hno.
  assert (Hrun : forall acts w,
            existsb is_load_template acts = false ->
            Forall in_unit_square (points (morph_editor w)) ->
            Forall in_unit_square (points (morph_editor (run acts w)))).
  { induction acts as [| a rest IH]; intros w Hacts Hw; [exact Hw |].
    cbn [existsb] in Hacts. apply orb_false_iff in Hacts.
    destruct Hacts as [Ha Hrest].
    cbn [run]. apply IH; [exact Hrest |]. now apply unit_step. }
  apply Hrun; [exact Hno | constructor].
Qed.

Lemma update_display_on_flat_pixmap (self : ImageCanvas) (pw : Z)
    (p : MorphPoint) (rest : list MorphPoint) :
  pixmap self = Some (pw, 0%Z) ->
  update_display self true (p :: rest) = Raise ZeroDivisionError.
Proof.
  intros Hpix.
  assert (Hpos : widget_positions self true (p :: rest)
                 = Raise ZeroDivisionError).
  { cbn [widget_positions]. unfold get_widget_space_pos, get_image_rect.
    rewrite Hpix. cbn [negb orb].
    destruct (widget_size self) as [ww wh]. reflexivity. }
  unfold update_display. cbn [negb]. rewrite Hpos.
  now destruct (display_triangles self && (3 <=? length (p :: rest))).
Qed.

(** [load_image] is not all or nothing.  While the source canvas still has
    the null pixmap it started with (or any pixmap of height 0) and the
    list holds a point, loading a readable file raises [ZeroDivisionError]
    in the repaint of the source canvas: by then [source_image],
    [target_image] and the image of the source canvas are the new image,
    and the target canvas has not been given it. *)
Theorem load_image_on_null_pixmap (w : MainWindow) (bgr : image) (pw : Z)
    (p : MorphPoint) (rest : list MorphPoint) :
  pixmap (source_canvas w) = Some (pw, 0%Z) ->
  points (morph_editor w) = p :: rest ->
  exists w',
    load_image w (Some (Some bgr)) = (w', Some ZeroDivisionError)
    /\ source_image (morph_editor w') = Some (cvtColor_BGR2RGB bgr)
    /\ target_image (morph_editor w') = Some (cvtColor_BGR2RGB bgr)
    /\ source_canvas_image (morph_editor w') = Some (cvtColor_BGR2RGB bgr)
    /\ target_canvas_image (morph_editor w')
       = target_canvas_image (morph_editor w)
    /\ points (morph_editor w') = points (morph_editor w)
    /\ source_canvas w' = source_canvas w
    /\ target_canvas w' = target_canvas w.
Proof.
  intros Hpix Hpts. unfold load_image. rewrite Hpts.
  rewrite (@update_display_on_flat_pixmap (source_canvas w) pw p rest Hpix).
  eexists. split; [reflexivity |]. simpl. now repeat split.
Qed.

End WindowFacts.

(** * The program on concrete inputs

    The inputs below place every point on the pixel grid and use affine maps
    that send grid points to grid points, so the exact instance computes what
    the floating-point program computes. *)

Section Runs.

Import Reference.

#[local] Abbreviation interpolate lib self t :=
  (@interpolate_image Q_floats lib self t).
#[local] Abbreviation morph lib self := (@update_morph Q_floats lib self).
#[local] Abbreviation frames lib self n loop canceled :=
  (@save_gif_frames Q_floats lib self n loop canceled).

Lemma picture_rectangular : rectangular picture.
Proof. repeat constructor. Qed.

Lemma picture_uint8 : uint8_image picture.
Proof.
  unfold uint8_image. vm_compute picture.
  repeat (constructor; [repeat (constructor; [cbv; intuition discriminate |]) |]).
  all: constructor.
Qed.

(** C1.  [interpolate_image] seeds its output with zeros, not with a copy
    of the source: on the 4x4 picture with the triangle (0,0), (2,0), (0,2)
    and [t = 0], pixel (3,3) lies under no mask and comes out black, while
    the source pixel is (133, 50, 200).  [update_morph], on the same input,
    does seed with a copy of the source and keeps the pixel. *)
Theorem interpolate_image_seeds_with_zeros :
  let self := editor corner in
  exists frame out,
    snd (interpolate plain self 0%Q) = Ok frame
    /\ snd (morph plain self) = Ok (set_target_canvas_image self out)
    /\ @Delaunay _ plain (source_layout self picture) = Ok [(0, 1, 2)]
    /\ @covered _ plain (blended_layout self picture 0%Q) (0, 1, 2) 3 3
       = false
    /\ getpx picture 3 3 = Some (133, 50, 200)%Z
    /\ getpx frame 3 3 = Some (0, 0, 0)%Z
    /\ getpx out 3 3 = Some (133, 50, 200)%Z.
Proof.
  cbv zeta. do 2 eexists. repeat split; try reflexivity.
Qed.

(** C2.  At [t = 0] the blended layout is the source layout and every
    pixel under the triangle's mask is the source pixel, but the frame is
    not the source raster: pixel (2,2), under no mask, is black where the
    source has (122, 50, 200).  (Same defect as in C1: the zero seed.) *)
Theorem interpolate_image_at_0_is_not_the_source :
  let self := editor corner in
  exists frame,
    snd (interpolate plain self 0%Q) = Ok frame
    /\ blended_layout self picture 0%Q = source_layout self picture
    /\ @covered _ plain (blended_layout self picture 0%Q) (0, 1, 2) 1 1
       = true
    /\ getpx frame 1 1 = getpx picture 1 1
    /\ @covered _ plain (blended_layout self picture 0%Q) (0, 1, 2) 2 2
       = false
    /\ getpx frame 2 2 = Some (0, 0, 0)%Z
    /\ getpx picture 2 2 = Some (122, 50, 200)%Z.
Proof.
  cbv zeta. eexists. repeat split; try reflexivity.
Qed.

(** C6.  At [t = 1] the blended layout is the target layout, and under the
    mask the frame agrees with what [update_morph] puts on the target
    canvas; elsewhere it does not: pixel (0,0) is black in the frame and
    (100, 50, 200) on the target canvas.  (Same defect as in C1.) *)
Theorem interpolate_image_at_1_differs_from_update_morph :
  let self := editor shifted in
  exists frame out,
    snd (interpolate plain self 1%Q) = Ok frame
    /\ snd (morph plain self) = Ok (set_target_canvas_image self out)
    /\ blended_layout self picture 1%Q = target_layout self picture
    /\ @covered _ plain (target_layout self picture) (0, 1, 2) 2 1 = true
    /\ getpx frame 2 1 = Some (101, 50, 200)%Z
    /\ getpx out 2 1 = Some (101, 50, 200)%Z
    /\ @covered _ plain (target_layout self picture) (0, 1, 2) 0 0 = false
    /\ getpx frame 0 0 = Some (0, 0, 0)%Z
    /\ getpx out 0 0 = Some (100, 50, 200)%Z.
Proof.
  cbv zeta. do 2 eexists. repeat split; try reflexivity.
Qed.

(** C9.  With two points [update_morph] returns at once: no call, no
    change.  [interpolate_image] has no such guard: it hands the two points
    to [Delaunay], catches the error and returns the source image, so
    [save_gif] still produces its frames. *)
Theorem interpolate_image_triangulates_two_points :
  let self := editor pair in
  length (points self) = 2
  /\ morph plain self = ([], Ok self)
  /\ interpolate plain self 0%Q
     = ([@ev_Delaunay Q_floats plain [(0, 0); (2, 0)]%Q;
         ev_print QhullError], Ok picture)
  /\ snd (frames plain self 2 false (fun _ => false))
     = Ok (Some [picture; picture]).
Proof.
  cbv zeta. repeat split; reflexivity.
Qed.

Lemma fan_never_raises (s : simplex) :
  In s [(1, 3, 0); (3, 1, 2)] ->
  ~ @triangle_raises _ recorded picture
      (source_layout (editor fan) picture)
      (blended_layout (editor fan) picture 0%Q) s.
Proof.
  intros [<- | [<- | []]]; cbv; intros [H | H]; now apply H.
Qed.

Lemma fan_never_raises_on_target (s : simplex) :
  In s [(1, 3, 0); (3, 1, 2)] ->
  ~ @triangle_raises _ recorded picture
      (source_layout (editor fan) picture)
      (target_layout (editor fan) picture) s.
Proof.
  intros [<- | [<- | []]]; cbv; intros [H | H]; now apply H.
Qed.

(** The inputs at which the theorems above are applied. *)

Lemma no_triangle_is_skipped_at_fan :
  @Delaunay _ recorded (source_layout (editor fan) picture)
  = Ok [(1, 3, 0); (3, 1, 2)]
  /\ (exists frame,
        snd (interpolate recorded (editor fan) 0%Q) = Ok frame
        /\ getpx frame 3 0 = Some (103, 50, 200)%Z)
  /\ (exists out,
        snd (morph recorded (editor fan))
        = Ok (set_target_canvas_image (editor fan) out)
        /\ getpx out 3 0 = Some (103, 50, 200)%Z).
Proof.
  split; [reflexivity |].
  destruct (@no_triangle_is_skipped Q_floats recorded (editor fan)
              0%Q picture [(1, 3, 0)] [] (3, 1, 2)
              eq_refl eq_refl (le_S _ _ (le_n 3))
              picture_rectangular picture_uint8 eq_refl)
    as [_ [Hframe [_ Hout]]].
  split.
  - destruct (Hframe fan_never_raises) as [frame [Hrun Hpx]].
    exists frame. split; [exact Hrun |].
    destruct (Hpx 3 0) as [_ Hat];
      [split; cbv; lia | reflexivity | intros s [] |].
    rewrite Hat. reflexivity.
  - destruct (Hout fan_never_raises_on_target) as [out [Hrun Hpx]].
    exists out. split; [exact Hrun |].
    destruct (Hpx 3 0) as [_ Hat];
      [split; cbv; lia | reflexivity | intros s [] |].
    rewrite Hat. reflexivity.
Defined.

Lemma save_gif_frames_forward_at_5 :
  map (@frame_time Q_floats 5) (seq 0 5) = [0; 1 # 4; 1 # 2; 3 # 4; 1]%Q
  /\ exists images,
       snd (frames plain (editor corner) 5 false (fun _ => false))
       = Ok (Some images)
       /\ length images = 5
       /\ forall i, i < 5 ->
            exists frame,
              nth_error images i = Some frame
              /\ snd (interpolate plain (editor corner)
                        (@frame_time Q_floats 5 i)) = Ok frame.
Proof.
  split; [reflexivity |].
  apply (@save_gif_frames_forward Q_floats plain (editor corner) 5
           (fun _ => false) picture);
    [reflexivity | lia | reflexivity].
Defined.

Lemma save_gif_frames_loop_at_4 :
  exists forward,
    snd (frames plain (editor corner) 4 true (fun _ => false))
    = Ok (Some (forward ++ rev forward))
    /\ length forward = 4
    /\ length (forward ++ rev forward) = 8
    /\ nth_error (forward ++ rev forward) 4
       = nth_error (forward ++ rev forward) 3.
Proof.
  destruct (@save_gif_frames_loop Q_floats plain (editor corner) 4
              (fun _ => false) picture eq_refl (le_S _ _ (le_S _ _ (le_n 2)))
              (fun _ _ => eq_refl))
    as [forward [Hrun [Hlen [_ [Hlen2 Hturn]]]]].
  exists forward. repeat split; assumption.
Defined.

Lemma interpolate_image_blends_at_half :
  nth_error (blended_layout (editor fan_moved) picture (1 # 2)%Q) 3
  = Some (2, 3)%Q
  /\ @Delaunay _ recorded (source_layout (editor fan_moved) picture)
     = Ok [(1, 3, 0); (3, 1, 2)]
  /\ In (@ev_getAffineTransform Q_floats recorded
           ((2, 0), (2, 2), (0, 0))%Q ((2, 0), (2, 3), (0, 0))%Q)
        (fst (interpolate recorded (editor fan_moved) (1 # 2)%Q))
  /\ In (@ev_fillConvexPoly Q_floats recorded ((2, 3), (2, 0), (4, 0))%Z)
        (fst (interpolate recorded (editor fan_moved) (1 # 2)%Q)).
Proof.
  destruct (@interpolate_image_blends Q_floats recorded (editor fan_moved)
              (1 # 2)%Q picture eq_refl)
    as [Hlayout [Hcalls _]].
  split; [| split; [reflexivity | split]].
  - exact (Hlayout 3 (mk (1 # 2) (1 # 2) (1 # 2) 1) eq_refl).
  - apply (Hcalls [] (1, 3, 0) [(3, 1, 2)] _ _ eq_refl);
      [intros s' [] | reflexivity | reflexivity].
  - assert (Hbefore : forall s', In s' [(1, 3, 0)] ->
              ~ @triangle_raises _ recorded picture
                  (source_layout (editor fan_moved) picture)
                  (blended_layout (editor fan_moved) picture (1 # 2)%Q) s')
      by (intros s' [<- | []]; cbv; intros [H | H]; now apply H).
    assert (Hlast : ~ @triangle_raises _ recorded picture
                        (source_layout (editor fan_moved) picture)
                        (blended_layout (editor fan_moved) picture
                           (1 # 2)%Q) (3, 1, 2))
      by (cbv; intros [H | H]; now apply H).
    exact (proj2 (Hcalls [(1, 3, 0)] (3, 1, 2) []
                    ((2, 2), (2, 0), (4, 0))%Q ((2, 3), (2, 0), (4, 0))%Q
                    eq_refl Hbefore eq_refl eq_refl) Hlast).
Defined.

Lemma interpolate_image_falls_back_at_pair :
  snd (interpolate plain (editor pair) (1 # 2)%Q) = Ok picture
  /\ exists calls e,
       fst (interpolate plain (editor pair) (1 # 2)%Q)
       = calls ++ [ev_print e].
Proof.
  apply (@interpolate_image_falls_back Q_floats plain (editor pair)
           (1 # 2)%Q picture eq_refl).
  left. exists QhullError. reflexivity.
Defined.

Lemma template_round_trip_at_shifted :
  @load_template _ float_text (editor [])
    (@save_template _ float_text (editor shifted))
  = (editor shifted, Ok tt)
  /\ length (points (fst (@load_template _ float_text (editor [])
                            (@save_template _ float_text (editor shifted)))))
     = 3.
Proof.
  apply (@template_round_trip Q_floats float_text (editor shifted)
           (editor [])).
  repeat constructor.
Defined.

Lemma corner_never_raises (dst : list (@point Q_floats)) (s : simplex) :
  In s [(0, 1, 2)] ->
  lookup3 dst s <> None ->
  ~ @triangle_raises _ plain picture
      (source_layout (editor corner) picture) dst s.
Proof.
  intros [<- | []] Hdst. unfold triangle_raises.
  destruct (lookup3 dst (0, 1, 2)) as [dst_tri |]; [| now destruct Hdst].
  destruct (lookup3 _ _) as [src_tri |] eqn:Hsrc; [| discriminate Hsrc].
  destruct (getAffineTransform src_tri dst_tri) as [M | e] eqn:HM.
  - intros [H | H]; now apply H.
  - revert HM. cbn [getAffineTransform plain library].
    destruct src_tri as [[[x0 y0] [x1 y1]] [x2 y2]],
      dst_tri as [[[u0 v0] [u1 v1]] [u2 v2]].
    unfold affine. intros HM.
    destruct (Qeq_bool _ 0) in HM; discriminate HM.
Qed.

Lemma update_morph_keeps_uncovered_pixels_at_corner :
  exists out,
    snd (morph plain (editor corner))
    = Ok (set_target_canvas_image (editor corner) out)
    /\ getpx out 3 3 = getpx picture 3 3.
Proof.
  destruct (@update_morph_keeps_uncovered_pixels Q_floats plain
              (editor corner) picture [(0, 1, 2)]
              eq_refl (le_n 3) picture_rectangular picture_uint8 eq_refl)
    as [out [Hrun Hpx]].
  - intros s Hs. apply corner_never_raises; [exact Hs |].
    destruct Hs as [<- | []]. discriminate.
  - exists out. split; [exact Hrun |].
    apply Hpx; [split; cbv; lia |].
    intros s [<- | []]. reflexivity.
Defined.

Lemma interpolate_image_blackens_uncovered_pixels_at_corner :
  exists frame,
    snd (interpolate plain (editor corner) 0%Q) = Ok frame
    /\ getpx frame 3 3 = Some (0, 0, 0)%Z.
Proof.
  destruct (@interpolate_image_blackens_uncovered_pixels Q_floats plain
              (editor corner) 0%Q picture [(0, 1, 2)]
              eq_refl picture_rectangular eq_refl)
    as [frame [Hrun Hpx]].
  - intros s Hs. apply corner_never_raises; [exact Hs |].
    destruct Hs as [<- | []]. discriminate.
  - exists frame. split; [exact Hrun |].
    apply Hpx; [split; cbv; lia |].
    intros s [<- | []]. reflexivity.
Defined.

Lemma update_morph_below_three_points_at_pair :
  morph plain (editor pair) = ([], Ok (editor pair)).
Proof.
  apply (@update_morph_below_three_points Q_floats plain (editor pair)).
  apply le_n.
Defined.

Lemma interpolate_image_always_triangulates_at_pair :
  exists rest,
    fst (interpolate plain (editor pair) 0%Q)
    = @ev_Delaunay Q_floats plain (source_layout (editor pair) picture)
      :: rest.
Proof.
  apply (@interpolate_image_always_triangulates Q_floats plain
           (editor pair) 0%Q picture eq_refl).
Defined.

Lemma update_morph_keeps_canvas_on_error_at_flat :
  snd (morph plain (editor flat)) = Ok (editor flat)
  /\ exists calls e,
       fst (morph plain (editor flat)) = calls ++ [ev_print e].
Proof.
  apply (@update_morph_keeps_canvas_on_error Q_floats plain (editor flat)
           picture eq_refl (le_n 3)).
  left. exists QhullError. reflexivity.
Defined.

Lemma gif_duration_bounds_at_50 :
  (1 <= gif_duration 50 <= 99)%Z
  /\ ((50 <= 99)%Z -> gif_duration 50 = (100 - 50)%Z)
  /\ gif_duration 100 = gif_duration 99.
Proof.
  apply (@gif_duration_bounds 50%Z). split; discriminate.
Defined.

Lemma save_gif_cancelled_at_2 :
  snd (frames plain (editor corner) 5 true (fun i => Nat.eqb i 2)) = Ok None.
Proof.
  apply (@save_gif_cancelled Q_floats plain (editor corner) 5 2 true
           (fun i => Nat.eqb i 2) picture eq_refl);
    [repeat constructor | repeat constructor | reflexivity].
Defined.

Lemma save_gif_frames_below_two_at_corner :
  snd (frames plain (editor corner) 0 true (fun _ => false)) = Ok (Some [])
  /\ snd (frames plain (editor corner) 1 true (fun _ => false))
     = Raise ZeroDivisionError.
Proof.
  apply (@save_gif_frames_below_two Q_floats plain (editor corner) true
           (fun _ => false) picture eq_refl eq_refl).
Defined.

Lemma interpolate_image_frame_shape_at_shifted :
  exists frame,
    snd (interpolate plain (editor shifted) 1%Q) = Ok frame
    /\ shape frame = shape picture
    /\ rectangular frame
    /\ uint8_image frame.
Proof.
  apply (@interpolate_image_frame_shape Q_floats plain (editor shifted)
           1%Q picture eq_refl picture_rectangular picture_uint8).
Defined.

Lemma update_morph_canvas_shape_at_shifted :
  exists self',
    snd (morph plain (editor shifted)) = Ok self'
    /\ (self' = editor shifted
        \/ exists out,
             target_canvas_image self' = Some out
             /\ shape out = shape picture
             /\ rectangular out
             /\ uint8_image out).
Proof.
  eexists. split; [reflexivity |].
  apply (@update_morph_canvas_shape Q_floats plain (editor shifted) _
           picture eq_refl (le_n 3) picture_rectangular eq_refl).
Defined.

Lemma save_gif_frames_of_one_shape_at_3 :
  exists images,
    snd (frames plain (editor shifted) 3 true (fun _ => false))
    = Ok (Some images)
    /\ Forall (fun frame => shape frame = shape picture
                            /\ uint8_image frame) images.
Proof.
  eexists. split; [reflexivity |].
  apply (@save_gif_frames_of_one_shape Q_floats plain (editor shifted) 3
           true (fun _ => false) picture _ eq_refl picture_rectangular
           picture_uint8 eq_refl).
Defined.

(** A template whose second line is blank. *)
Lemma load_template_stops_at_bad_row_at_blank_line :
  @load_template _ float_text (editor shifted)
    (list_ascii_of_string "0.0,0.0,0.5,0.5" ++ [LF; LF]
     ++ list_ascii_of_string "0.5,0.0,0.5,0.0" ++ [LF])
  = (editor [mk 0 0 (1 # 2) (1 # 2)], Raise ValueError)
  /\ ValueError = ValueError.
Proof.
  apply (@load_template_stops_at_bad_row Q_floats float_text
           (editor shifted) _
           [map list_ascii_of_string
              ["0.0"; "0.0"; "0.5"; "0.5"]%string]
           []
           [map list_ascii_of_string
              ["0.5"; "0.0"; "0.5"; "0.0"]%string]
           [mk 0 0 (1 # 2) (1 # 2)] ValueError);
    [repeat constructor; discriminate | reflexivity | repeat constructor
    | reflexivity].
Defined.

#[local] Abbreviation press c has_image pts b click :=
  (@mousePressEvent Q_floats Q_canvas c has_image pts b click).
#[local] Abbreviation move c has_image pts at_pos :=
  (@mouseMoveEvent Q_floats Q_canvas c has_image pts at_pos).
#[local] Abbreviation image_pos c has_image p :=
  (@get_image_space_pos Q_floats Q_canvas c has_image p).

Lemma get_image_space_pos_clamped_at_outside :
  image_pos source_view true (500, 100)%Z = Ok (1, 1 # 4)%Q
  /\ @unit_coordinate Q_floats Q_canvas 1%Q
  /\ @unit_coordinate Q_floats Q_canvas (1 # 4)%Q.
Proof.
  split; [reflexivity |].
  apply (@get_image_space_pos_clamped Q_floats Q_canvas source_view true
           (500, 100)%Z (1, 1 # 4)%Q eq_refl).
Defined.

Lemma mousePressEvent_on_target_keeps_points_at_corner :
  press target_view true corner LeftButton (200, 0)%Z
  = Ok (select target_view 1, corner, false)
  /\ corner = corner /\ false = false
  /\ (select target_view 1 = target_view
      \/ exists i, i < length corner
                   /\ select target_view 1 = select target_view i).
Proof.
  split; [reflexivity |].
  apply (@mousePressEvent_on_target_keeps_points Q_floats Q_canvas
           target_view (select target_view 1) true corner corner
           LeftButton (200, 0)%Z false eq_refl eq_refl).
Defined.

Lemma mousePressEvent_left_on_source_at_corner :
  press source_view true corner LeftButton (100, 100)%Z
  = Ok (source_view, corner ++ [mk (1 # 4) (1 # 4) (1 # 4) (1 # 4)], false)
  /\ ((corner ++ [mk (1 # 4) (1 # 4) (1 # 4) (1 # 4)] = corner
       /\ false = false
       /\ exists i, i < length corner
                    /\ source_view = select source_view i)
      \/ (source_view = source_view
          /\ false = parent_has_points_updated source_view
          /\ exists pos,
               corner ++ [mk (1 # 4) (1 # 4) (1 # 4) (1 # 4)]
               = corner ++ [@Build_MorphPoint Q_floats pos pos]
               /\ @unit_coordinate Q_floats Q_canvas (fst pos)
               /\ @unit_coordinate Q_floats Q_canvas (snd pos))).
Proof.
  split; [reflexivity |].
  apply (@mousePressEvent_left_on_source Q_floats Q_canvas source_view
           source_view true corner _ (100, 100)%Z false eq_refl eq_refl).
Defined.

Lemma mousePressEvent_right_on_source_at_corner :
  press source_view true corner RightButton (203, 2)%Z
  = Ok (source_view, [mk 0 0 0 0; mk 0 (1 # 2) 0 (1 # 2)], false)
  /\ source_view = source_view
  /\ (([mk 0 0 0 0; mk 0 (1 # 2) 0 (1 # 2)] = corner /\ false = false)
      \/ exists i,
           i < length corner
           /\ [mk 0 0 0 0; mk 0 (1 # 2) 0 (1 # 2)]
              = firstn i corner ++ skipn (S i) corner
           /\ S (length [mk 0 0 0 0; mk 0 (1 # 2) 0 (1 # 2)])
              = length corner
           /\ false = parent_has_points_updated source_view).
Proof.
  split; [reflexivity |].
  apply (@mousePressEvent_right_on_source Q_floats Q_canvas source_view
           source_view true corner _ (203, 2)%Z false eq_refl eq_refl).
Defined.

Lemma mouseMoveEvent_moves_one_point_at_corner :
  move dragging_last true corner (100, 300)%Z
  = Ok ([mk 0 0 0 0; mk (1 # 2) 0 (1 # 2) 0;
         mk (1 # 4) (3 # 4) 0 (1 # 2)], false)
  /\ exists i p pos,
       selected_point dragging_last = Some i
       /\ nth_error corner i = Some p
       /\ nth_error [mk 0 0 0 0; mk (1 # 2) 0 (1 # 2) 0;
                     mk (1 # 4) (3 # 4) 0 (1 # 2)] i
          = Some (@Build_MorphPoint Q_floats pos (target p)).
Proof.
  split; [reflexivity |].
  destruct (@mouseMoveEvent_moves_one_point Q_floats Q_canvas dragging_last
              true corner _ (100, 300)%Z false eq_refl)
    as [[H _] | [i [p [pos [Hs [_ [_ [_ [Hp [Hp' _]]]]]]]]]].
  - discriminate H.
  - exists i, p, pos. repeat split; assumption.
Defined.

Lemma mouseMoveEvent_stale_index_at_pair :
  move dragging_last true pair (100, 300)%Z = Raise IndexError.
Proof.
  apply (@mouseMoveEvent_stale_index Q_floats Q_canvas dragging_last true
           pair (100, 300)%Z 2 (1 # 4, 3 # 4)%Q eq_refl eq_refl (le_n 2)
           eq_refl).
Defined.

Lemma delete_during_drag_breaks_move_at_corner :
  press dragging_last true corner RightButton (1, 1)%Z
  = Ok (dragging_last, [mk (1 # 2) 0 (1 # 2) 0; mk 0 (1 # 2) 0 (1 # 2)],
        false)
  /\ move dragging_last true
       [mk (1 # 2) 0 (1 # 2) 0; mk 0 (1 # 2) 0 (1 # 2)] (100, 300)%Z
     = Raise IndexError.
Proof.
  split; [reflexivity |].
  apply (@delete_during_drag_breaks_move Q_floats Q_canvas dragging_last
           dragging_last true corner _ (1, 1)%Z (100, 300)%Z false 2
           (1 # 4, 3 # 4)%Q eq_refl eq_refl eq_refl eq_refl eq_refl);
    [discriminate | reflexivity].
Defined.

Lemma press_without_image_adds_origin_at_corner :
  image_pos source_view false (100, 100)%Z = Ok (0, 0)%Q
  /\ @get_widget_space_pos Q_floats Q_canvas source_view false
       (1 # 2, 1 # 2)%Q = Ok (0, 0)%Z
  /\ press source_view false corner LeftButton (100, 100)%Z
     = Ok (source_view, corner ++ [mk 0 0 0 0], false).
Proof.
  apply (@press_without_image_adds_origin Q_floats Q_canvas source_view
           corner (100, 100)%Z (1 # 2, 1 # 2)%Q eq_refl).
  discriminate.
Defined.

Lemma points_stay_in_unit_square_at_session :
  points (morph_editor (@run Q_floats plain Q_canvas float_text session
                    (new_window (400, 400)%Z (400, 400)%Z true)))
  = [mk (1 # 4) (1 # 4) (3 # 4) 0; mk 1 (1 # 2) (1 # 2) (3 # 4)]
  /\ Forall (@in_unit_square Q_floats Q_canvas)
       (points (morph_editor
                  (@run Q_floats plain Q_canvas float_text session
                     (new_window (400, 400)%Z (400, 400)%Z true)))).
Proof.
  split; [vm_compute; reflexivity |].
  apply (@points_stay_in_unit_square Q_floats plain Q_canvas float_text
           session (400, 400)%Z (400, 400)%Z true eq_refl).
Defined.

Lemma load_image_on_null_pixmap_at_first_point :
  let w := @run Q_floats plain Q_canvas float_text
             [act_press false LeftButton (100, 100)%Z]
             (new_window (400, 400)%Z (400, 400)%Z false) in
  points (morph_editor w) = [mk 0 0 0 0]
  /\ exists w',
       @step Q_floats plain Q_canvas float_text
         (act_load_image (Some (Some picture))) w
       = (w', Some ZeroDivisionError)
       /\ source_image (morph_editor w') = Some (cvtColor_BGR2RGB picture)
       /\ target_canvas_image (morph_editor w') = None.
Proof.
  cbv zeta. split; [reflexivity |].
  destruct (@load_image_on_null_pixmap Q_floats Q_canvas
              (@run Q_floats plain Q_canvas float_text
                 [act_press false LeftButton (100, 100)%Z]
                 (new_window (400, 400)%Z (400, 400)%Z false))
              picture 0%Z (mk 0 0 0 0) [] eq_refl eq_refl)
    as [w' [Hrun [Hsrc [_ [_ [Htgt _]]]]]].
  exists w'. split; [exact Hrun |]. split; [exact Hsrc |].
  rewrite Htgt. reflexivity.
Defined.

End Runs.
